(** * timestate: a TTL state monitor (monitor.go)

  A shallow embedding of [Monitor], its entry type [item], the heap
  type [items] and the parts of Go's [container/heap] that [monitor.go]
  calls, followed by the properties of the expiration engine.

  Conventions.
  - [time.Time] values and [time.Duration] values are integers ([Z]);
    [time.Now()] is an argument [now] of every operation that reads the
    clock.
  - A [*item] is an address ([ptr]) into an arena [mem]; the table
    ([items]) and the queue ([heap]) both hold addresses, so that the
    sharing of one entry object by both structures is kept.
  - A Go run-time panic (index out of range, nil dereference) is [None].
  - The notification channel is a bounded buffer; a non-blocking send
    succeeds exactly when the buffer has room. *)

From stdpp Require Import base option list gmap strings fin_maps.
From Stdlib Require Import ZArith Lia.

Local Open Scope Z_scope.

(** ** container/heap *)

(** The functions of Go's standard package [container/heap] that
    [monitor.go] calls ([Push], [Pop], [Fix] and their helpers [up] and
    [down]), over the methods [Len], [Less], [Swap], [Push] and [Pop] of
    [items]. A slice is a list; indices are natural numbers, the overflow
    test [j1 < 0] of [down] has no counterpart. *)

Module heap.
Section container_heap.
Context {A : Type}.
(** [before a b] is the comparison behind [Less]; it is partial because
    [items.Less] dereferences the two entries. *)
Variable before : A → A → option bool.

Definition Len (h : list A) : nat := length h.

(** [h.Less(i, j)] *)
Definition Less (h : list A) (i j : nat) : option bool :=
  a ← h !! i; b ← h !! j; before a b.

(** [h[i], h[j] = h[j], h[i]] *)
Definition Swap (h : list A) (i j : nat) : option (list A) :=
  a ← h !! i; b ← h !! j; Some (<[i:=b]> (<[j:=a]> h)).

(** [*h = append( *h, x)] *)
Definition append (h : list A) (x : A) : list A := h ++ [x].

(** [items.Pop]: the last element and the slice without it. *)
Definition pop_last (h : list A) : option (A * list A) :=
  x ← last h; Some (x, take (length h - 1)%nat h).

(** The loop of [up]; one unit of fuel per iteration. *)
Fixpoint up_loop (fuel : nat) (h : list A) (j : nat) : option (list A) :=
  match fuel with
  | O => None
  | S fuel' =>
      let i := ((j - 1) / 2)%nat in
      if decide (i = j) then Some h
      else
        c ← Less h j i;
        if negb c then Some h
        else h' ← Swap h i j; up_loop fuel' h' i
  end.

Definition up (h : list A) (j : nat) : option (list A) :=
  up_loop (S j) h j.

(** The loop of [down]; returns the slice and the final index [i]. *)
Fixpoint down_loop (fuel : nat) (h : list A) (i n : nat)
  : option (list A * nat) :=
  match fuel with
  | O => None
  | S fuel' =>
      let j1 := (2 * i + 1)%nat in
      if decide (n ≤ j1)%nat then Some (h, i)
      else
        let j2 := (j1 + 1)%nat in
        j ← (if decide (j2 < n)%nat
             then (c ← Less h j2 j1; Some (if c : bool then j2 else j1))
             else Some j1);
        c ← Less h j i;
        if negb c then Some (h, i)
        else h' ← Swap h i j; down_loop fuel' h' j n
  end.

Definition down (h : list A) (i0 n : nat) : option (list A * bool) :=
  '(h', i) ← down_loop (S n) h i0 n;
  Some (h', bool_decide (i0 < i)%nat).

(** [heap.Push] *)
Definition Push (h : list A) (x : A) : option (list A) :=
  let h1 := append h x in
  up h1 (Len h1 - 1)%nat.

(** [heap.Pop]; on the empty heap [Swap(0, -1)] panics. *)
Definition Pop (h : list A) : option (A * list A) :=
  if decide (Len h = 0%nat) then None
  else
    let n := (Len h - 1)%nat in
    h1 ← Swap h 0 n;
    '(h2, _) ← down h1 0 n;
    pop_last h2.

(** [heap.Fix] *)
Definition Fix (h : list A) (i : nat) : option (list A) :=
  '(h1, moved) ← down h i (Len h);
  if negb moved then up h1 i else Some h1.

(** The min-heap ordering: no element is [Less] than its parent. *)
Definition ordered_at (h : list A) (j : nat) : bool :=
  match Less h j ((j - 1) / 2)%nat with
  | Some false => true
  | _ => false
  end.

Definition ordered (h : list A) : bool :=
  forallb (ordered_at h) (seq 1 (length h - 1)).

End container_heap.
End heap.

(** ** The heap ordering, as a proposition

    [rank] is the quantity that [Less] compares. [ordered_upto h n] is
    the min-heap ordering of the first [n] elements. [down_ready h i n]
    and [up_ready h j] are what [down] and [up] need to restore it: the
    ordering holds everywhere except between [i] and its children
    (between [j] and its parent), and across that gap. *)

Definition parent (j : nat) : nat := ((j - 1) / 2)%nat.

Section heap_order.
Context {A : Type}.
Variable rank : A → Z.

Definition le_at (h : list A) (i j : nat) : Prop :=
  ∀ a b, h !! i = Some a → h !! j = Some b → rank a ≤ rank b.

Definition ordered_upto (h : list A) (n : nat) : Prop :=
  ∀ j, (0 < j < n)%nat → le_at h (parent j) j.

Definition down_ready (h : list A) (i n : nat) : Prop :=
  (∀ j, (0 < j < n)%nat → parent j ≠ i → le_at h (parent j) j) ∧
  (∀ j, (0 < j < n)%nat → parent j = i → (0 < i)%nat →
        le_at h (parent i) j).

Definition up_ready (h : list A) (j : nat) : Prop :=
  (∀ k, (0 < k < length h)%nat → k ≠ j → le_at h (parent k) k) ∧
  (∀ k, (0 < k < length h)%nat → parent k = j → (0 < j)%nat →
        le_at h (parent j) k).

End heap_order.

(** ** Entries, channel and monitor state *)

Definition ptr := nat.

Section monitor.
Context {K T : Type}.
Context `{Countable K, EqDecision T}.
(** The zero value of [T], returned by [Get] when nothing is found. *)
Variable zeroT : T.

Record item := mkItem {
  Key : K;
  Value : T;
  Expires : Z;
  removed : bool
}.

(** The sending half of a channel of capacity [cap] and its buffer. *)
Record chan := mkChan {
  cap : nat;
  buf : list K
}.

(** [select { case ch <- k: ... default: ... }] *)
Definition try_send (c : chan) (k : K) : option chan :=
  if decide (length (buf c) < cap c)%nat
  then Some (mkChan (cap c) (buf c ++ [k]))
  else None.

(** The consumer's receive, when a key is buffered. *)
Definition recv (c : chan) : option (K * chan) :=
  match buf c with
  | [] => None
  | k :: rest => Some (k, mkChan (cap c) rest)
  end.

Record Monitor := mkMonitor {
  mheap : list ptr;
  items : gmap K ptr;
  mem : list item;
  defaultTTL : Z;
  expiredCh : chan
}.

(** The expiry of the entry at address [p]. *)
Definition expiry (σ : list item) (p : ptr) : Z :=
  from_option Expires 0 (σ !! p).

(** [h[i].Expires.Before(h[j].Expires)] on the two entries. *)
Definition before (σ : list item) (a b : ptr) : option bool :=
  x ← σ !! a; y ← σ !! b; Some (bool_decide (Expires x < Expires y)).

Definition New (defaultTTL : Z) (capacity : nat) : Monitor :=
  mkMonitor [] ∅ [] defaultTTL (mkChan capacity []).

Definition watch (key : K) (value : T) (ttl : Z) (now : Z) (m : Monitor)
  : option (bool * Monitor) :=
  let expires := now + ttl in
  match items m !! key with
  | Some p =>
      it ← mem m !! p;
      if decide (Value it = value) then Some (false, m)
      else
        let σ := <[p := mkItem (Key it) value expires false]> (mem m) in
        h ← heap.Fix (before σ) (mheap m) 0;
        Some (true, mkMonitor h (items m) σ (defaultTTL m) (expiredCh m))
  | None =>
      let p := length (mem m) in
      let σ := mem m ++ [mkItem key value expires false] in
      h ← heap.Push (before σ) (mheap m) p;
      Some (true,
            mkMonitor h (<[key := p]> (items m)) σ (defaultTTL m)
                      (expiredCh m))
  end.

Definition Watch (key : K) (value : T) (now : Z) (m : Monitor)
  : option (bool * Monitor) :=
  watch key value (defaultTTL m) now m.

Definition Get (key : K) (m : Monitor) : option (T * Z * bool) :=
  match items m !! key with
  | Some p =>
      it ← mem m !! p;
      if negb (removed it) then Some (Value it, Expires it, true)
      else Some (zeroT, 0, false)
  | None => Some (zeroT, 0, false)
  end.

Definition Remove (key : K) (m : Monitor) : option Monitor :=
  match items m !! key with
  | Some p =>
      it ← mem m !! p;
      let σ := <[p := mkItem (Key it) (Value it) (Expires it) true]> (mem m) in
      Some (mkMonitor (mheap m) (delete key (items m)) σ (defaultTTL m)
                      (expiredCh m))
  | None => Some m
  end.

(** What one pass through the body of the [for] loop of
    [checkExpirations] did. *)
Inductive outcome :=
| Break            (* queue empty, or its head is not due: loop exit *)
| Dropped          (* stale entry discarded *)
| Sent (k : K)     (* key delivered and deleted from the table *)
| Requeued.        (* channel full: entry pushed back *)

Definition sweep_iter (now : Z) (m : Monitor) : option (Monitor * outcome) :=
  match mheap m !! 0%nat with
  | None => Some (m, Break)
  | Some p =>
      it ← mem m !! p;
      if decide (now < Expires it) then Some (m, Break)
      else
        '(_, h) ← heap.Pop (before (mem m)) (mheap m);
        if negb (removed it) && bool_decide (items m !! Key it = Some p)
        then
          match try_send (expiredCh m) (Key it) with
          | Some c =>
              Some (mkMonitor h (delete (Key it) (items m)) (mem m)
                              (defaultTTL m) c, Sent (Key it))
          | None =>
              h' ← heap.Push (before (mem m)) h p;
              Some (mkMonitor h' (items m) (mem m) (defaultTTL m)
                              (expiredCh m), Requeued)
          end
        else
          Some (mkMonitor h (items m) (mem m) (defaultTTL m) (expiredCh m),
                Dropped)
  end.

(** [checkExpirations]: the loop, one unit of fuel per iteration; the
    result carries the keys sent, in order. [None] with every amount of
    fuel means that the loop does not exit. *)
Fixpoint checkExpirations (fuel : nat) (now : Z) (m : Monitor)
  : option (Monitor * list K) :=
  match fuel with
  | O => None
  | S fuel' =>
      '(m1, o) ← sweep_iter now m;
      match o with
      | Break => Some (m1, [])
      | Sent k =>
          '(m2, ks) ← checkExpirations fuel' now m1; Some (m2, k :: ks)
      | Dropped | Requeued => checkExpirations fuel' now m1
      end
  end.

(** ** Call sequences

    A caller's view of the monitor: calls of the public operations, ticks
    of the scheduler loop ([run] calling [checkExpirations]) and receives
    by the consumer of the channel, one after the other. [OpPass] is one
    pass through the loop body of [checkExpirations] on its own, for
    sweeps that are observed before they return. *)

Inductive op :=
| OpWatch (k : K) (v : T) (now : Z)
| OpGet (k : K)
| OpRemove (k : K)
| OpTick (now : Z) (fuel : nat)
| OpPass (now : Z)
| OpRecv.

Inductive result :=
| RWatch (changed : bool)
| RGet (v : T) (expires : Z) (found : bool)
| RRemove
| RTick (sent : list K)
| RPass (o : outcome)
| RRecv (k : option K).

Definition with_chan (m : Monitor) (c : chan) : Monitor :=
  mkMonitor (mheap m) (items m) (mem m) (defaultTTL m) c.

Definition exec (o : op) (m : Monitor) : option (Monitor * result) :=
  match o with
  | OpWatch k v now => '(b, m') ← Watch k v now m; Some (m', RWatch b)
  | OpGet k => '(v, e, f) ← Get k m; Some (m, RGet v e f)
  | OpRemove k => m' ← Remove k m; Some (m', RRemove)
  | OpTick now fuel =>
      '(m', ks) ← checkExpirations fuel now m; Some (m', RTick ks)
  | OpPass now => '(m', o) ← sweep_iter now m; Some (m', RPass o)
  | OpRecv =>
      match recv (expiredCh m) with
      | Some (k, c) => Some (with_chan m c, RRecv (Some k))
      | None => Some (m, RRecv None)
      end
  end.

Fixpoint run (ops : list op) (m : Monitor) : option (Monitor * list result) :=
  match ops with
  | [] => Some (m, [])
  | o :: ops' =>
      '(m1, r) ← exec o m; '(m2, rs) ← run ops' m1; Some (m2, r :: rs)
  end.

(** The keys sent on the channel during a run, in order. *)
Fixpoint notified (rs : list result) : list K :=
  match rs with
  | [] => []
  | RTick ks :: rs' => ks ++ notified rs'
  | RPass (Sent k) :: rs' => k :: notified rs'
  | _ :: rs' => notified rs'
  end.

Definition watches (k : K) (o : op) : bool :=
  match o with
  | OpWatch k' _ _ => bool_decide (k' = k)
  | _ => false
  end.

(** ** Reachable states

    One step is a call of [watch] (with any TTL, which covers [Watch]),
    a call of [Remove], one pass through the loop body of
    [checkExpirations], or a receive on the channel. [Get] does not
    change the state. *)

Inductive step : Monitor → Monitor → Prop :=
| step_watch k v ttl now m b m' :
    watch k v ttl now m = Some (b, m') → step m m'
| step_Remove k m m' :
    Remove k m = Some m' → step m m'
| step_sweep now m m' o :
    sweep_iter now m = Some (m', o) → step m m'
| step_recv m k c :
    recv (expiredCh m) = Some (k, c) → step m (with_chan m c).

Inductive reachable : Monitor → Prop :=
| reach_New ttl capacity : reachable (New ttl capacity)
| reach_step m m' : reachable m → step m m' → reachable m'.

(** How often the entry object [p] occurs in the queue. *)
Definition occurrences (p : ptr) (h : list ptr) : nat :=
  length (filter (λ q, q = p) h).

(** The table and the queue agree: every table entry is a live entry
    object with the right key that is queued; no object is queued twice;
    every queued object exists and, unless tombstoned, is the table's
    entry for its key. *)
Definition table_ok (m : Monitor) : Prop :=
  ∀ k p, items m !! k = Some p →
    ∃ it, mem m !! p = Some it ∧ Key it = k ∧ removed it = false ∧
          p ∈ mheap m.

Definition queue_ok (m : Monitor) : Prop :=
  NoDup (mheap m) ∧
  ∀ p, p ∈ mheap m →
    ∃ it, mem m !! p = Some it ∧
          (removed it = false → items m !! Key it = Some p).

Definition consistent (m : Monitor) : Prop := table_ok m ∧ queue_ok m.

(** The queue satisfies the min-heap ordering on [Expires]. *)
Definition heap_ordered (m : Monitor) : bool :=
  heap.ordered (before (mem m)) (mheap m).

End monitor.

(** ** Scenarios

    Monitors with string keys and integer values, as in the tests. *)

Abbreviation SMonitor := (Monitor (K:=string) (T:=Z)).
Abbreviation sop := (op (K:=string) (T:=Z)).

(** *** Four keys, then a refresh of a key that is not at the root *)

Definition four_watched : list sop :=
  [OpWatch "a" 1 0; OpWatch "b" 1 1; OpWatch "c" 1 2; OpWatch "d" 1 3].

Definition four_table : gmap string ptr :=
  list_to_map [("a", 0%nat); ("b", 1%nat); ("c", 2%nat); ("d", 3%nat)].

Definition four_state : SMonitor :=
  mkMonitor [0; 1; 2; 3]%nat four_table
    [mkItem "a" 1 100 false; mkItem "b" 1 101 false;
     mkItem "c" 1 102 false; mkItem "d" 1 103 false]
    100 (mkChan 10 []).

Definition four_refreshed : SMonitor :=
  mkMonitor [0; 1; 2; 3]%nat four_table
    [mkItem "a" 1 100 false; mkItem "b" 2 150 false;
     mkItem "c" 1 102 false; mkItem "d" 1 103 false]
    100 (mkChan 10 []).

(** [four_state] after [Remove "b"]. *)
Definition four_removed : SMonitor :=
  mkMonitor [0; 1; 2; 3]%nat
    (list_to_map [("a", 0%nat); ("c", 2%nat); ("d", 3%nat)])
    [mkItem "a" 1 100 false; mkItem "b" 1 101 true;
     mkItem "c" 1 102 false; mkItem "d" 1 103 false]
    100 (mkChan 10 []).

(** [four_state] after [watch "a" 2] at time 50: a was at the root and
    has sunk to the last place. *)
Definition four_root_refreshed : SMonitor :=
  mkMonitor [1; 3; 2; 0]%nat four_table
    [mkItem "a" 2 150 false; mkItem "b" 1 101 false;
     mkItem "c" 1 102 false; mkItem "d" 1 103 false]
    100 (mkChan 10 []).

(** [four_state] after a tick at time 101: a and b are sent. *)
Definition four_swept : SMonitor :=
  mkMonitor [2; 3]%nat (list_to_map [("c", 2%nat); ("d", 3%nat)])
    [mkItem "a" 1 100 false; mkItem "b" 1 101 false;
     mkItem "c" 1 102 false; mkItem "d" 1 103 false]
    100 (mkChan 10 ["a"; "b"]).

(** [four_state] after [Remove "a"], and after the pass that drops the
    tombstoned entry. *)
Definition four_a_removed : SMonitor :=
  mkMonitor [0; 1; 2; 3]%nat
    (list_to_map [("b", 1%nat); ("c", 2%nat); ("d", 3%nat)])
    [mkItem "a" 1 100 true; mkItem "b" 1 101 false;
     mkItem "c" 1 102 false; mkItem "d" 1 103 false]
    100 (mkChan 10 []).

(** *** A channel of capacity one and two due keys *)

Definition spin_start : SMonitor :=
  mkMonitor [0; 1]%nat (list_to_map [("a", 0%nat); ("b", 1%nat)])
    [mkItem "a" 1 100 false; mkItem "b" 1 101 false]
    100 (mkChan 1 []).

Definition spin_stuck : SMonitor :=
  mkMonitor [1%nat] (list_to_map [("b", 1%nat)])
    [mkItem "a" 1 100 false; mkItem "b" 1 101 false]
    100 (mkChan 1 ["a"]).

(** *** A due key below an entry that was refreshed in place *)

Definition late_ops : list sop :=
  [OpWatch "a" 1 0; OpWatch "b" 1 1; OpWatch "c" 1 2; OpWatch "d" 1 3;
   OpWatch "e" 1 4;
   OpWatch "d" 2 10; OpWatch "b" 2 50; OpWatch "c" 2 60; OpWatch "e" 2 70;
   OpTick 105 10; OpTick 115 10; OpGet "d"; OpTick 125 10; OpTick 135 10;
   OpTick 145 10; OpGet "d"; OpTick 155 10; OpGet "d"].

(** *** A key that is never reached by a sweep

    Keys x, p, y and d are watched; d is watched once ([starve_setup]) or
    refreshed once, one time unit later ([refresh_setup]), and never
    touched again. From then on, every 50 time units, the key at the
    root of the queue (x and y in turn) and the key p get new values, and
    a tick follows. *)

Definition starve_setup : list sop :=
  [OpWatch "x" 0 0; OpWatch "p" 0 0; OpWatch "y" 0 0; OpWatch "d" 7 0;
   OpWatch "p" 1 1].

Definition refresh_setup : list sop :=
  [OpWatch "x" 0 0; OpWatch "p" 0 0; OpWatch "y" 0 0; OpWatch "d" 7 0;
   OpWatch "d" 8 1; OpWatch "p" 1 1].

(** The round that starts 50 time units after time [t]; [x_at_root] says
    which of x and y is at the root of the queue. *)
Definition starve_round (x_at_root : bool) (t : Z) : list sop :=
  [OpWatch (if x_at_root then "x" else "y") (t + 50) (t + 50);
   OpWatch "p" (t + 51) (t + 51);
   OpTick (t + 52) 10].

Fixpoint starve_rounds (n : nat) : list sop :=
  match n with
  | O => []
  | S n' => starve_rounds n' ++ starve_round (Nat.even n') (50 * Z.of_nat n')
  end.

Definition starve_table : gmap string ptr :=
  list_to_map [("x", 0%nat); ("p", 1%nat); ("y", 2%nat); ("d", 3%nat)].

(** A state with these four entries: the queue [h] and the value and
    expiry of x, p, y and d. *)
Definition starve_shape (h : list ptr) (x p y d : Z * Z) : SMonitor :=
  mkMonitor h starve_table
    [mkItem "x" x.1 x.2 false; mkItem "p" p.1 p.2 false;
     mkItem "y" y.1 y.2 false; mkItem "d" d.1 d.2 false]
    100 (mkChan 10 []).

(** The state after the setup and the rounds up to time [t]: the entry
    at the root has value [vr] and expiry [er]. *)
Definition starve_state (x_at_root : bool) (t vr er : Z) (d : Z * Z)
  : SMonitor :=
  if x_at_root
  then starve_shape [0; 1; 2; 3]%nat (vr, er) (t + 1, t + 101) (t, t + 100) d
  else starve_shape [2; 1; 0; 3]%nat (t, t + 100) (t + 1, t + 101) (vr, er) d.

(** * Properties *)

(** ** container/heap: the operations permute the slice and do not panic
    on in-range arguments *)

Section container_heap_facts.
Context {A : Type}.
Variable before : A → A → option bool.
(** [ok a] says that [a] can be compared: [before] is defined on any two
    such elements. *)
Variable ok : A → Prop.
Hypothesis before_total : ∀ a b, ok a → ok b → is_Some (before a b).

Local Arguments Nat.div : simpl never.
Local Arguments Nat.mul : simpl never.

Lemma Swap_perm (h h' : list A) i j :
  heap.Swap h i j = Some h' → h' ≡ₚ h.
Proof.
  unfold heap.Swap. intros Hs.
  destruct (h !! i) as [a|] eqn:Hi; simplify_option_eq.
  by apply Permutation_insert_swap.
Qed.

Lemma Swap_length (h h' : list A) i j :
  heap.Swap h i j = Some h' → length h' = length h.
Proof. intros Hs. by rewrite (Swap_perm _ _ _ _ Hs). Qed.

Lemma Swap_lookup_ne (h h' : list A) i j k :
  heap.Swap h i j = Some h' → k ≠ i → k ≠ j → h' !! k = h !! k.
Proof.
  unfold heap.Swap. intros Hs Hki Hkj. simplify_option_eq.
  by rewrite !list_lookup_insert_ne.
Qed.

Lemma Swap_lookup_l (h h' : list A) i j :
  heap.Swap h i j = Some h' → h' !! i = h !! j.
Proof.
  unfold heap.Swap. intros Hs.
  destruct (h !! i) as [a|] eqn:Hi; simplify_option_eq.
  rewrite list_lookup_insert_eq; [done|].
  rewrite length_insert. by eapply lookup_lt_Some.
Qed.

Lemma Swap_lookup_r (h h' : list A) i j :
  heap.Swap h i j = Some h' → h' !! j = h !! i.
Proof.
  unfold heap.Swap. intros Hs.
  destruct (h !! i) as [a|] eqn:Hi; simplify_option_eq.
  destruct (decide (i = j)) as [->|Hne].
  - rewrite list_lookup_insert_eq; [congruence|].
    rewrite length_insert. by eapply lookup_lt_Some.
  - rewrite list_lookup_insert_ne by done.
    rewrite list_lookup_insert_eq; [done|]. by eapply lookup_lt_Some.
Qed.

Lemma Swap_is_Some (h : list A) i j :
  (i < length h)%nat → (j < length h)%nat → is_Some (heap.Swap h i j).
Proof.
  intros [a Ha]%lookup_lt_is_Some [b Hb]%lookup_lt_is_Some.
  unfold heap.Swap. rewrite Ha, Hb. by eexists.
Qed.

Lemma Less_is_Some (h : list A) i j :
  Forall ok h → (i < length h)%nat → (j < length h)%nat →
  is_Some (heap.Less before h i j).
Proof.
  intros Hok [a Ha]%lookup_lt_is_Some [b Hb]%lookup_lt_is_Some.
  unfold heap.Less. rewrite Ha, Hb. simpl.
  apply before_total; eapply Forall_lookup_1; eauto.
Qed.

Lemma up_loop_perm fuel (h h' : list A) j :
  heap.up_loop before fuel h j = Some h' → h' ≡ₚ h.
Proof.
  revert h j. induction fuel as [|fuel IH]; intros h j; simpl; [done|].
  case_decide; [by intros [= ->]|].
  destruct (heap.Less before h j ((j - 1) / 2)) as [[]|]; simpl;
    [|by intros [= ->]|done].
  destruct (heap.Swap h ((j - 1) / 2) j) as [h1|] eqn:Hs; simpl; [|done].
  intros Hu. rewrite (IH _ _ Hu). by eapply Swap_perm.
Qed.

Lemma up_loop_is_Some fuel (h : list A) j :
  Forall ok h → (j < length h)%nat → (j < fuel)%nat →
  is_Some (heap.up_loop before fuel h j).
Proof.
  revert h j. induction fuel as [|fuel IH]; intros h j Hok Hj Hf; [lia|].
  simpl. case_decide as Hij; [by eexists|].
  assert ((j - 1) / 2 < j)%nat as Hlt.
  { destruct j as [|j]; [done|]. apply Nat.Div0.div_lt_upper_bound; lia. }
  destruct (Less_is_Some h j ((j - 1) / 2) Hok) as [c ->]; [lia..|].
  simpl. destruct c; simpl; [|by eexists].
  destruct (Swap_is_Some h ((j - 1) / 2) j) as [h1 Hs]; [lia..|].
  rewrite Hs. simpl. apply IH; [|rewrite (Swap_length _ _ _ _ Hs)|]; try lia.
  by rewrite (Swap_perm _ _ _ _ Hs).
Qed.

Lemma down_child (h : list A) i n j :
  (if decide (2 * i + 1 + 1 < n)%nat
   then c ← heap.Less before h (2 * i + 1 + 1) (2 * i + 1);
        Some (if c : bool then (2 * i + 1 + 1)%nat else (2 * i + 1)%nat)
   else Some (2 * i + 1)%nat) = Some j →
  ¬ (n ≤ 2 * i + 1)%nat → (i < j < n)%nat.
Proof.
  intros Hj Hn. case_decide.
  - destruct (heap.Less before h _ _) as [[]|]; simplify_eq/=; lia.
  - simplify_eq. lia.
Qed.

Lemma down_loop_perm fuel (h h' : list A) i i' n :
  heap.down_loop before fuel h i n = Some (h', i') → h' ≡ₚ h.
Proof.
  revert h i. induction fuel as [|fuel IH]; intros h i; simpl; [done|].
  case_decide; [by intros [= -> _]|].
  match goal with |- context [mbind _ ?c] => destruct c as [j|] end;
    simpl; [|done].
  destruct (heap.Less before h j i) as [[]|]; simpl;
    [|by intros [= -> _]|done].
  destruct (heap.Swap h i j) as [h1|] eqn:Hs; simpl; [|done].
  intros Hd. rewrite (IH _ _ Hd). by eapply Swap_perm.
Qed.

Lemma down_loop_lookup_ge fuel (h h' : list A) i i' n k :
  heap.down_loop before fuel h i n = Some (h', i') → (n ≤ k)%nat →
  h' !! k = h !! k.
Proof.
  revert h i. induction fuel as [|fuel IH]; intros h i; simpl; [done|].
  case_decide as Hn; [by intros [= -> _]|].
  match goal with |- context [mbind _ ?c] => destruct c as [j|] eqn:Hj end;
    simpl; [|done].
  apply down_child in Hj; [|done].
  destruct (heap.Less before h j i) as [[]|]; simpl;
    [|by intros [= -> _]|done].
  destruct (heap.Swap h i j) as [h1|] eqn:Hs; simpl; [|done].
  intros Hd Hk. rewrite (IH _ _ Hd Hk).
  eapply Swap_lookup_ne; [done|lia..].
Qed.

Lemma down_loop_is_Some fuel (h : list A) i n :
  Forall ok h → (n ≤ length h)%nat → (n - i < fuel)%nat →
  is_Some (heap.down_loop before fuel h i n).
Proof.
  revert h i. induction fuel as [|fuel IH]; intros h i Hok Hn Hf; [lia|].
  simpl. case_decide as Hj1; [by eexists|].
  assert (∃ j, (if decide (2 * i + 1 + 1 < n)%nat
     then c ← heap.Less before h (2 * i + 1 + 1) (2 * i + 1);
          Some (if c : bool then (2 * i + 1 + 1)%nat else (2 * i + 1)%nat)
     else Some (2 * i + 1)%nat) = Some j) as [j Hj].
  { case_decide; [|by eexists].
    destruct (Less_is_Some h (2 * i + 1 + 1) (2 * i + 1) Hok) as [c ->];
      [lia..|]. by eexists. }
  rewrite Hj. simpl. apply down_child in Hj; [|done].
  destruct (Less_is_Some h j i Hok) as [c ->]; [lia..|].
  simpl. destruct c; simpl; [|by eexists].
  destruct (Swap_is_Some h i j) as [h1 Hs]; [lia..|].
  rewrite Hs. simpl. apply IH; [|rewrite (Swap_length _ _ _ _ Hs)|]; try lia.
  by rewrite (Swap_perm _ _ _ _ Hs).
Qed.

Lemma down_perm (h h' : list A) i n b :
  heap.down before h i n = Some (h', b) → h' ≡ₚ h.
Proof.
  unfold heap.down. intros Hd.
  destruct (heap.down_loop before (S n) h i n) as [[h1 i1]|] eqn:Hl;
    simpl in Hd; simplify_eq. by eapply down_loop_perm.
Qed.

Lemma down_is_Some (h : list A) i n :
  Forall ok h → (n ≤ length h)%nat → is_Some (heap.down before h i n).
Proof.
  intros Hok Hn. unfold heap.down.
  destruct (down_loop_is_Some (S n) h i n Hok Hn) as [[h1 i1] ->]; [lia|].
  by eexists.
Qed.

Lemma Push_perm (h h' : list A) x :
  heap.Push before h x = Some h' → h' ≡ₚ x :: h.
Proof.
  unfold heap.Push, heap.up, heap.append. intros Hu.
  rewrite (up_loop_perm _ _ _ _ Hu). by rewrite Permutation_app_comm.
Qed.

Lemma Push_is_Some (h : list A) x :
  Forall ok h → ok x → is_Some (heap.Push before h x).
Proof.
  intros Hok Hx. unfold heap.Push, heap.up, heap.append, heap.Len.
  apply up_loop_is_Some; [|rewrite length_app; simpl; lia|lia].
  apply Forall_app. split; [done|]. by constructor.
Qed.

Lemma Fix_perm (h h' : list A) i :
  heap.Fix before h i = Some h' → h' ≡ₚ h.
Proof.
  unfold heap.Fix. intros Hf.
  destruct (heap.down before h i (heap.Len h)) as [[h1 b]|] eqn:Hd;
    simpl in Hf; simplify_eq.
  apply down_perm in Hd. destruct b; simpl in Hf; simplify_eq; [done|].
  unfold heap.up in Hf. by rewrite (up_loop_perm _ _ _ _ Hf).
Qed.

(** [heap.Fix(h, 0)] never panics, not even on the empty heap. *)
Lemma Fix_0_is_Some (h : list A) :
  Forall ok h → is_Some (heap.Fix before h 0).
Proof.
  intros Hok. unfold heap.Fix, heap.Len.
  destruct (down_is_Some h 0 (length h) Hok) as [[h1 b] Hd]; [done|].
  rewrite Hd. simpl. destruct b; simpl; by eexists.
Qed.

(** [heap.Pop] removes and returns the element at index 0. *)
Lemma Pop_spec (h h' : list A) x :
  heap.Pop before h = Some (x, h') → h !! 0%nat = Some x ∧ h ≡ₚ x :: h'.
Proof.
  unfold heap.Pop, heap.Len. case_decide as Hlen; [done|].
  destruct (heap.Swap h 0 (length h - 1)) as [h1|] eqn:Hs; simpl; [|done].
  destruct (heap.down before h1 0 (length h - 1)) as [[h2 b]|] eqn:Hd;
    simpl; [|done].
  unfold heap.pop_last. destruct (last h2) as [y|] eqn:Hy; simpl; [|done].
  intros [= -> <-].
  unfold heap.down in Hd.
  destruct (heap.down_loop before (S (length h - 1)) h1 0 (length h - 1))
    as [[h3 i3]|] eqn:Hl; simpl in Hd; simplify_eq.
  pose proof (down_loop_perm _ _ _ _ _ _ Hl) as Hp.
  pose proof (down_loop_lookup_ge _ _ _ _ _ _ (length h - 1)%nat Hl) as Hk.
  pose proof (Swap_length _ _ _ _ Hs) as Hl1.
  assert (length h2 = length h) as Hl2 by (by rewrite Hp).
  rewrite last_lookup, Hl2 in Hy. replace (Init.Nat.pred (length h))
    with (length h - 1)%nat in Hy by lia.
  split.
  { rewrite Hk in Hy by lia. by rewrite (Swap_lookup_r _ _ _ _ Hs) in Hy. }
  rewrite <- (Swap_perm _ _ _ _ Hs), <- Hp.
  rewrite <- (take_drop (length h2 - 1) h2) at 1.
  rewrite Permutation_app_comm.
  assert (drop (length h2 - 1) h2 = [x]) as ->; [|done].
  rewrite <- Hl2 in Hy.
  apply list_eq. intros [|k]; simpl.
  - rewrite lookup_drop. by rewrite Nat.add_0_r.
  - rewrite lookup_drop. apply lookup_ge_None_2. lia.
Qed.

Lemma Pop_is_Some (h : list A) :
  Forall ok h → h ≠ [] → is_Some (heap.Pop before h).
Proof.
  intros Hok Hne. unfold heap.Pop, heap.Len.
  assert (0 < length h)%nat by (destruct h; simpl; [done|lia]).
  case_decide; [lia|].
  destruct (Swap_is_Some h 0 (length h - 1)) as [h1 Hs]; [lia..|].
  rewrite Hs. simpl.
  destruct (down_is_Some h1 0 (length h - 1)) as [[h2 b] Hd].
  { by rewrite (Swap_perm _ _ _ _ Hs). }
  { rewrite (Swap_length _ _ _ _ Hs). lia. }
  rewrite Hd. simpl. unfold heap.pop_last.
  assert (length h2 = length h) as Hl2.
  { by rewrite (down_perm _ _ _ _ _ Hd), (Swap_perm _ _ _ _ Hs). }
  destruct (last h2) as [y|] eqn:Hy; [by eexists|].
  apply last_None in Hy. subst h2. simpl in Hl2. lia.
Qed.

End container_heap_facts.

(** ** The monitor: table and queue stay consistent *)

Section monitor_facts.
Context {K T : Type}.
Context `{Countable K, EqDecision T}.
Variable zeroT : T.

Implicit Types (m : Monitor (K:=K) (T:=T)) (σ : list (item (K:=K) (T:=T))).
Implicit Types (p q : ptr) (k : K) (v : T).

Lemma before_is_Some σ a b :
  is_Some (σ !! a) → is_Some (σ !! b) → is_Some (before σ a b).
Proof. intros [x Hx] [y Hy]. unfold before. rewrite Hx, Hy. by eexists. Qed.

Lemma queue_ok_valid m :
  queue_ok m → Forall (λ p, is_Some (mem m !! p)) (mheap m).
Proof.
  intros [_ Hq]. apply Forall_forall. intros p Hp.
  destruct (Hq p Hp) as (it & Hit & _). by eexists.
Qed.

Lemma valid_insert σ p it (h : list ptr) :
  Forall (λ q, is_Some (σ !! q)) h →
  Forall (λ q, is_Some (<[p:=it]> σ !! q)) h.
Proof.
  intros Hh. eapply Forall_impl; [done|]. intros q Hq. simpl in *.
  apply lookup_lt_is_Some. rewrite length_insert.
  by apply lookup_lt_is_Some.
Qed.

Lemma valid_app σ it (h : list ptr) :
  Forall (λ q, is_Some (σ !! q)) h →
  Forall (λ q, is_Some ((σ ++ [it]) !! q)) h.
Proof.
  intros Hh. eapply Forall_impl; [done|]. intros q Hq. simpl in *.
  apply lookup_lt_is_Some. rewrite length_app.
  apply lookup_lt_is_Some in Hq. lia.
Qed.

Lemma occurrences_absent p (h : list ptr) :
  p ∉ h → occurrences p h = 0%nat.
Proof.
  unfold occurrences. induction h as [|q h IH]; intros Hp; [done|].
  apply not_elem_of_cons in Hp as [Hne Hp].
  rewrite filter_cons, decide_False by done. by apply IH.
Qed.

Lemma occurrences_NoDup p (h : list ptr) :
  NoDup h → p ∈ h → occurrences p h = 1%nat.
Proof.
  induction 1 as [|q h Hq Hnd IH]; intros Hp.
  { by apply not_elem_of_nil in Hp. }
  unfold occurrences. rewrite filter_cons.
  apply elem_of_cons in Hp as [->|Hp].
  - rewrite decide_True by done. simpl. f_equal.
    by apply occurrences_absent.
  - rewrite decide_False; [by apply IH|]. by intros ->.
Qed.

(** *** [watch] *)

Lemma watch_consistent k v ttl now m b m' :
  consistent m → watch k v ttl now m = Some (b, m') → consistent m'.
Proof.
  intros [Ht [Hnd Hq]]. unfold watch.
  destruct (items m !! k) as [p|] eqn:Hk.
  - destruct (Ht k p Hk) as (it & Hit & Hkey & Hrm & Hin).
    rewrite Hit. simpl. case_decide; [by intros [= <- <-]|].
    destruct (heap.Fix _ _ _) as [h|] eqn:Hf; simpl; [|done].
    intros [= <- <-]. apply Fix_perm in Hf.
    assert (p < length (mem m))%nat as Hlt by (by eapply lookup_lt_Some).
    unfold consistent, table_ok, queue_ok; simpl. split; [|split].
    + intros k' p' Hk'. destruct (Ht k' p' Hk') as (it0 & Hit0 & ? & ? & ?).
      destruct (decide (p' = p)) as [->|Hne].
      * eexists. rewrite list_lookup_insert_eq by done.
        split; [done|]. simpl. rewrite Hf. split_and!; congruence.
      * exists it0. rewrite list_lookup_insert_ne by done.
        by rewrite Hf.
    + by rewrite Hf.
    + intros q Hq'. rewrite Hf in Hq'.
      destruct (Hq q Hq') as (it0 & Hit0 & Hlive).
      destruct (decide (q = p)) as [->|Hne].
      * eexists. rewrite list_lookup_insert_eq by done.
        split; [done|]. simpl. intros _. congruence.
      * exists it0. by rewrite list_lookup_insert_ne.
  - destruct (heap.Push _ _ _) as [h|] eqn:Hp; simpl; [|done].
    intros [= <- <-]. apply Push_perm in Hp.
    assert (length (mem m) ∉ mheap m) as Hfresh.
    { intros Hin. destruct (Hq _ Hin) as (it0 & Hit0 & _).
      apply lookup_lt_Some in Hit0. lia. }
    unfold consistent, table_ok, queue_ok; simpl. split; [|split].
    + intros k' p'. rewrite lookup_insert. case_decide as Hkk.
      * intros [= <-]. subst k'. eexists.
        rewrite lookup_app_r, Nat.sub_diag by done.
        split; [done|]. simpl. rewrite Hp. split_and!; [done..|].
        by left.
      * intros Hk'. destruct (Ht k' p' Hk') as (it0 & Hit0 & ? & ? & ?).
        exists it0. rewrite lookup_app_l by (by eapply lookup_lt_Some).
        rewrite Hp. split_and!; [done..|]. by right.
    + rewrite Hp. by constructor.
    + intros q Hq'. rewrite Hp in Hq'.
      apply elem_of_cons in Hq' as [->|Hq'].
      * eexists. rewrite lookup_app_r, Nat.sub_diag by done.
        split; [done|]. simpl. intros _. by rewrite lookup_insert_eq.
      * destruct (Hq q Hq') as (it0 & Hit0 & Hlive).
        exists it0. rewrite lookup_app_l by (by eapply lookup_lt_Some).
        split; [done|]. intros Hrm. specialize (Hlive Hrm).
        rewrite lookup_insert_ne; [done|]. congruence.
Qed.

Lemma watch_is_Some k v ttl now m :
  consistent m → is_Some (watch k v ttl now m).
Proof.
  intros [Ht Hq]. pose proof (queue_ok_valid m Hq) as Hv. unfold watch.
  destruct (items m !! k) as [p|] eqn:Hk.
  - destruct (Ht k p Hk) as (it & Hit & _). rewrite Hit. simpl.
    case_decide; [by eexists|].
    edestruct (Fix_0_is_Some (before (<[p:=mkItem (Key it) v (now + ttl) false]>
                                       (mem m)))) as [h Hh];
      [apply before_is_Some|by apply valid_insert|].
    rewrite Hh. by eexists.
  - edestruct (Push_is_Some
                 (before (mem m ++ [mkItem k v (now + ttl) false]))
                 (λ q, is_Some ((mem m ++ [mkItem k v (now + ttl) false]) !! q))
                 (before_is_Some _) (mheap m) (length (mem m))) as [h Hh].
    + by apply valid_app.
    + apply lookup_lt_is_Some. rewrite length_app. simpl. lia.
    + rewrite Hh. by eexists.
Qed.

(** *** [Remove] and [Get] *)

Lemma Remove_consistent k m m' :
  consistent m → Remove k m = Some m' → consistent m'.
Proof.
  intros [Ht [Hnd Hq]]. unfold Remove.
  destruct (items m !! k) as [p|] eqn:Hk; [|by intros [= <-]].
  destruct (Ht k p Hk) as (it & Hit & Hkey & Hrm & Hin).
  rewrite Hit. simpl. intros [= <-].
  assert (p < length (mem m))%nat as Hlt by (by eapply lookup_lt_Some).
  unfold consistent, table_ok, queue_ok; simpl. split; [|split].
  - intros k' p'. rewrite lookup_delete. case_decide; [done|].
    intros Hk'. destruct (Ht k' p' Hk') as (it0 & Hit0 & ? & ? & ?).
    exists it0. rewrite list_lookup_insert_ne; [done|].
    intros <-. congruence.
  - done.
  - intros q Hq'. destruct (Hq q Hq') as (it0 & Hit0 & Hlive).
    destruct (decide (q = p)) as [->|Hne].
    + eexists. rewrite list_lookup_insert_eq by done. by split.
    + exists it0. rewrite list_lookup_insert_ne by done.
      split; [done|]. intros Hrm0. specialize (Hlive Hrm0).
      rewrite lookup_delete_ne; [done|]. congruence.
Qed.

Lemma Remove_is_Some k m : consistent m → is_Some (Remove k m).
Proof.
  intros [Ht _]. unfold Remove.
  destruct (items m !! k) as [p|] eqn:Hk; [|by eexists].
  destruct (Ht k p Hk) as (it & -> & _). by eexists.
Qed.

Lemma Get_is_Some k m : consistent m → is_Some (Get zeroT k m).
Proof.
  intros [Ht _]. unfold Get.
  destruct (items m !! k) as [p|] eqn:Hk; [|by eexists].
  destruct (Ht k p Hk) as (it & -> & _). simpl.
  destruct (removed it); by eexists.
Qed.

(** *** One pass through the loop body of [checkExpirations] *)

Lemma sweep_iter_consistent now m m' o :
  consistent m → sweep_iter now m = Some (m', o) → consistent m'.
Proof.
  intros [Ht [Hnd Hq]]. unfold sweep_iter.
  destruct (mheap m !! 0%nat) as [p|] eqn:H0; [|by intros [= <- <-]].
  destruct (mem m !! p) as [it|] eqn:Hit; simpl; [|done].
  case_decide; [by intros [= <- <-]|].
  destruct (heap.Pop _ _) as [[x h]|] eqn:Hpop; simpl; [|done].
  apply Pop_spec in Hpop as [Hx Hperm].
  assert (x = p) as -> by congruence.
  assert (NoDup (p :: h)) as Hnd' by (by rewrite <- Hperm).
  apply NoDup_cons in Hnd' as [Hp Hnd'].
  destruct (negb (removed it) && bool_decide (items m !! Key it = Some p))
    eqn:Hlive.
  - apply andb_true_iff in Hlive as [Hrm Hcur].
    apply negb_true_iff in Hrm. apply bool_decide_eq_true in Hcur.
    destruct (try_send _ _) as [c|].
    + intros [= <- <-]. unfold consistent, table_ok, queue_ok; simpl. split; [|split].
      * intros k' p'. rewrite lookup_delete. case_decide; [done|].
        intros Hk'. destruct (Ht k' p' Hk') as (it0 & Hit0 & ? & ? & Hin).
        exists it0. split_and!; [done..|].
        rewrite Hperm in Hin. apply elem_of_cons in Hin as [->|]; [|done].
        congruence.
      * done.
      * intros q Hq'. destruct (Hq q) as (it0 & Hit0 & Hl).
        { rewrite Hperm. by right. }
        exists it0. split; [done|]. intros Hrm0. specialize (Hl Hrm0).
        rewrite lookup_delete_ne; [done|].
        intros Heq. rewrite <- Heq in Hl. congruence.
    + destruct (heap.Push _ _ _) as [h'|] eqn:Hpush; simpl; [|done].
      intros [= <- <-]. apply Push_perm in Hpush.
      assert (h' ≡ₚ mheap m) as Hh by (by rewrite Hpush, Hperm).
      unfold consistent, table_ok, queue_ok; simpl. split; [|split].
      * intros k' p' Hk'. destruct (Ht k' p' Hk') as (it0 & ? & ? & ? & ?).
        exists it0. by rewrite Hh.
      * by rewrite Hh.
      * intros q Hq'. rewrite Hh in Hq'. by apply Hq.
  - intros [= <- <-]. unfold consistent, table_ok, queue_ok; simpl. split; [|split].
    + intros k' p' Hk'. destruct (Ht k' p' Hk') as (it0 & Hit0 & ? & ? & Hin).
      exists it0. split_and!; [done..|].
      rewrite Hperm in Hin. apply elem_of_cons in Hin as [->|]; [|done].
      assert (it0 = it) as -> by congruence.
      apply andb_false_iff in Hlive as [Hrm|Hcur].
      * apply negb_false_iff in Hrm. congruence.
      * apply bool_decide_eq_false in Hcur. congruence.
    + done.
    + intros q Hq'. apply Hq. rewrite Hperm. by right.
Qed.

Lemma sweep_iter_is_Some now m :
  consistent m → is_Some (sweep_iter now m).
Proof.
  intros [Ht Hq]. pose proof (queue_ok_valid m Hq) as Hv. unfold sweep_iter.
  destruct (mheap m !! 0%nat) as [p|] eqn:H0; [|by eexists].
  pose proof (Forall_lookup_1 _ _ _ _ Hv H0) as [it Hit].
  rewrite Hit. simpl. case_decide; [by eexists|].
  destruct (Pop_is_Some (before (mem m)) _ (before_is_Some _) (mheap m) Hv)
    as [[x h] Hpop].
  { by intros Heq; rewrite Heq in H0. }
  rewrite Hpop. simpl. apply Pop_spec in Hpop as [Hx Hperm].
  destruct (negb (removed it) && _); [|by eexists].
  destruct (try_send _ _); [by eexists|].
  destruct (Push_is_Some (before (mem m)) _ (before_is_Some _) h p)
    as [h' Hh'].
  - rewrite Hperm in Hv. by apply Forall_cons in Hv as [_ ?].
  - by eexists.
  - rewrite Hh'. by eexists.
Qed.

(** *** Every reachable state is consistent *)

Lemma New_consistent ttl capacity :
  consistent (New (K:=K) (T:=T) ttl capacity).
Proof.
  unfold consistent, table_ok, queue_ok; simpl. split; [|split].
  - intros k p Hk. by rewrite lookup_empty in Hk.
  - constructor.
  - intros p Hp. by apply not_elem_of_nil in Hp.
Qed.

Lemma step_consistent m m' : consistent m → step m m' → consistent m'.
Proof.
  intros Hc Hs. destruct Hs.
  - by eapply watch_consistent.
  - by eapply Remove_consistent.
  - by eapply sweep_iter_consistent.
  - done.
Qed.

Lemma reachable_consistent m : reachable m → consistent m.
Proof.
  induction 1 as [|m m' _ IH Hs]; [apply New_consistent|].
  by eapply step_consistent.
Qed.

(** A completed sweep is a sequence of steps. *)
Lemma checkExpirations_reachable fuel now m m' ks :
  reachable m → checkExpirations fuel now m = Some (m', ks) → reachable m'.
Proof.
  revert m ks. induction fuel as [|fuel IH]; intros m ks Hr; simpl; [done|].
  destruct (sweep_iter now m) as [[m1 o]|] eqn:Hi; simpl; [|done].
  assert (reachable m1) as Hr1.
  { eapply reach_step; [done|]. by eapply step_sweep. }
  destruct o.
  - by intros [= <- _].
  - by apply IH.
  - destruct (checkExpirations fuel now m1) as [[m2 ks2]|] eqn:Hc;
      simpl; [|done].
    intros [= <- _]. by eapply IH.
  - by apply IH.
Qed.

Lemma exec_reachable o m m' r :
  reachable m → exec zeroT o m = Some (m', r) → reachable m'.
Proof.
  intros Hr. destruct o; simpl.
  - destruct (Watch k v now m) as [[b m1]|] eqn:Hw; simpl; [|done].
    intros [= <- _]. eapply reach_step; [done|]. by eapply step_watch.
  - destruct (Get zeroT k m) as [[[v e] f]|]; simpl; [|done].
    by intros [= <- _].
  - destruct (Remove k m) as [m1|] eqn:Hrm; simpl; [|done].
    intros [= <- _]. eapply reach_step; [done|]. by eapply step_Remove.
  - destruct (checkExpirations fuel now m) as [[m1 ks]|] eqn:Hc;
      simpl; [|done].
    intros [= <- _]. by eapply checkExpirations_reachable.
  - destruct (sweep_iter now m) as [[m1 o]|] eqn:Hi; simpl; [|done].
    intros [= <- _]. eapply reach_step; [done|]. by eapply step_sweep.
  - destruct (recv (expiredCh m)) as [[k c]|] eqn:Hrc.
    + intros [= <- _]. eapply reach_step; [done|]. by eapply step_recv.
    + by intros [= <- _].
Qed.

Lemma run_reachable ops m m' rs :
  reachable m → run zeroT ops m = Some (m', rs) → reachable m'.
Proof.
  revert m rs. induction ops as [|o ops IH]; intros m rs Hr; simpl.
  { by intros [= <- _]. }
  destruct (exec zeroT o m) as [[m1 r]|] eqn:He; simpl; [|done].
  destruct (run zeroT ops m1) as [[m2 rs2]|] eqn:Hrun; simpl; [|done].
  intros [= <- _]. eapply IH; [|done]. by eapply exec_reachable.
Qed.

(** *** What a sweep sends *)

(** A pass that sends [k] found the table's entry for [k] at the head of
    the queue, live and due; it deletes [k] from the table. *)
Lemma sweep_iter_Sent now m m' k :
  sweep_iter now m = Some (m', Sent k) →
  ∃ p it, items m !! k = Some p ∧ mem m !! p = Some it ∧ Key it = k ∧
          removed it = false ∧ Expires it ≤ now ∧
          items m' = delete k (items m) ∧ mem m' = mem m.
Proof.
  unfold sweep_iter.
  destruct (mheap m !! 0%nat) as [p|] eqn:H0; [|done].
  destruct (mem m !! p) as [it|] eqn:Hit; simpl; [|done].
  case_decide; [done|].
  destruct (heap.Pop _ _) as [[x h]|] eqn:Hpop; simpl; [|done].
  destruct (negb (removed it) && bool_decide (items m !! Key it = Some p))
    eqn:Hlive; [|done].
  apply andb_true_iff in Hlive as [Hrm Hcur].
  apply negb_true_iff in Hrm. apply bool_decide_eq_true in Hcur.
  destruct (try_send _ _) as [c|].
  - intros [= <- <-]. exists p, it. split_and!; try done. lia.
  - by destruct (heap.Push _ _ _).
Qed.

(** A pass never touches the entries and only ever deletes from the
    table. *)
Lemma sweep_iter_frame now m m' o :
  sweep_iter now m = Some (m', o) →
  mem m' = mem m ∧ ∀ k p, items m' !! k = Some p → items m !! k = Some p.
Proof.
  unfold sweep_iter.
  destruct (mheap m !! 0%nat) as [p|] eqn:H0; [|by intros [= <- _]].
  destruct (mem m !! p) as [it|] eqn:Hit; simpl; [|done].
  case_decide; [by intros [= <- _]|].
  destruct (heap.Pop _ _) as [[x h]|] eqn:Hpop; simpl; [|done].
  destruct (negb (removed it) && _); [|by intros [= <- _]].
  destruct (try_send _ _) as [c|].
  - intros [= <- _]. simpl. split; [done|]. intros k q.
    rewrite lookup_delete. by case_decide.
  - destruct (heap.Push _ _ _); simpl; [|done]. by intros [= <- _].
Qed.

Lemma checkExpirations_frame fuel now m m' ks :
  checkExpirations fuel now m = Some (m', ks) →
  mem m' = mem m ∧ ∀ k p, items m' !! k = Some p → items m !! k = Some p.
Proof.
  revert m ks. induction fuel as [|fuel IH]; intros m ks; simpl; [done|].
  destruct (sweep_iter now m) as [[m1 o]|] eqn:Hi; simpl; [|done].
  apply sweep_iter_frame in Hi as [Hm Hi].
  assert (∀ ks', checkExpirations fuel now m1 = Some (m', ks') →
    mem m' = mem m ∧ ∀ k p, items m' !! k = Some p → items m !! k = Some p)
    as Hrest.
  { intros ks' Hc. apply IH in Hc as [Hm' Hc].
    split; [congruence|]. intros k p Hk. by apply Hi, Hc. }
  destruct o; [by intros [= <- _]|by apply Hrest| |by apply Hrest].
  destruct (checkExpirations fuel now m1) as [[m2 ks2]|] eqn:Hc;
    simpl; [|done].
  intros [= <- _]. by eapply Hrest.
Qed.

Lemma checkExpirations_sent fuel now m m' ks k :
  checkExpirations fuel now m = Some (m', ks) → k ∈ ks →
  ∃ p it, items m !! k = Some p ∧ mem m !! p = Some it ∧ Key it = k ∧
          removed it = false ∧ Expires it ≤ now.
Proof.
  revert m ks. induction fuel as [|fuel IH]; intros m ks; simpl; [done|].
  destruct (sweep_iter now m) as [[m1 o]|] eqn:Hi; simpl; [|done].
  pose proof (sweep_iter_frame _ _ _ _ Hi) as [Hm Hsub].
  assert (∀ ks', checkExpirations fuel now m1 = Some (m', ks') → k ∈ ks' →
    ∃ p it, items m !! k = Some p ∧ mem m !! p = Some it ∧ Key it = k ∧
            removed it = false ∧ Expires it ≤ now) as Hrest.
  { intros ks' Hc Hin.
    destruct (IH _ _ Hc Hin) as (p & it & Hk & Hp & ? & ? & ?).
    exists p, it. rewrite <- Hm. split_and!; [by apply Hsub|done..]. }
  destruct o.
  - intros [= <- <-]. by intros ?%not_elem_of_nil.
  - apply Hrest.
  - destruct (checkExpirations fuel now m1) as [[m2 ks2]|] eqn:Hc;
      simpl; [|done].
    intros [= <- <-]. intros [->|Hin]%elem_of_cons; [|by eapply Hrest].
    apply sweep_iter_Sent in Hi as (p & it & ? & ? & ? & ? & ? & _).
    by exists p, it.
  - apply Hrest.
Qed.

(** A sweep does not send a key that the table does not hold. *)
Lemma checkExpirations_absent fuel now m m' ks k :
  checkExpirations fuel now m = Some (m', ks) →
  items m !! k = None → (k ∉ ks) ∧ items m' !! k = None.
Proof.
  intros Hc Hk. split.
  - intros Hin. destruct (checkExpirations_sent _ _ _ _ _ _ Hc Hin)
      as (p & it & Hk' & _). congruence.
  - apply checkExpirations_frame in Hc as [_ Hsub].
    destruct (items m' !! k) as [p|] eqn:Hk'; [|done].
    apply Hsub in Hk'. congruence.
Qed.


(** *** [watch], case by case *)

Lemma watch_new k v ttl now m b m' :
  items m !! k = None → watch k v ttl now m = Some (b, m') →
  b = true ∧ items m' = <[k := length (mem m)]> (items m) ∧
  mem m' = mem m ++ [mkItem k v (now + ttl) false] ∧
  defaultTTL m' = defaultTTL m.
Proof.
  intros Hk. unfold watch. rewrite Hk.
  destruct (heap.Push _ _ _) as [h|]; simpl; [|done]. by intros [= <- <-].
Qed.

Lemma watch_same k v ttl now m p it :
  items m !! k = Some p → mem m !! p = Some it → Value it = v →
  watch k v ttl now m = Some (false, m).
Proof.
  intros Hk Hp Hv. unfold watch. rewrite Hk, Hp. simpl.
  by rewrite decide_True.
Qed.

Lemma watch_refresh k v ttl now m p it b m' :
  items m !! k = Some p → mem m !! p = Some it → Value it ≠ v →
  watch k v ttl now m = Some (b, m') →
  b = true ∧ items m' = items m ∧
  mem m' = <[p := mkItem (Key it) v (now + ttl) false]> (mem m) ∧
  defaultTTL m' = defaultTTL m.
Proof.
  intros Hk Hp Hv. unfold watch. rewrite Hk, Hp. simpl.
  rewrite decide_False by done.
  destruct (heap.Fix _ _ _) as [h|]; simpl; [|done]. by intros [= <- <-].
Qed.

Lemma Get_absent k m : items m !! k = None → Get zeroT k m = Some (zeroT, 0, false).
Proof. intros Hk. unfold Get. by rewrite Hk. Qed.

Lemma Get_live k m p it :
  items m !! k = Some p → mem m !! p = Some it → removed it = false →
  Get zeroT k m = Some (Value it, Expires it, true).
Proof. intros Hk Hp Hr. unfold Get. rewrite Hk, Hp. simpl. by rewrite Hr. Qed.

Lemma Remove_absent k m m' : Remove k m = Some m' → items m' !! k = None.
Proof.
  unfold Remove. destruct (items m !! k) as [p|] eqn:Hk.
  - destruct (mem m !! p); simpl; [|done]. intros [= <-]. simpl.
    apply lookup_delete_eq.
  - by intros [= <-].
Qed.

(** The scenario of [TestBasicOperations], from any consistent state
    that does not track [k]. *)
Lemma watch_get_remove_trace k v1 v2 t1 t2 t3 m :
  consistent m → items m !! k = None → v1 ≠ v2 →
  ∃ m',
    run zeroT [OpWatch k v1 t1; OpWatch k v1 t2; OpWatch k v2 t3;
               OpGet k; OpRemove k; OpGet k] m
    = Some (m', [RWatch true; RWatch false; RWatch true;
                 RGet v2 (t3 + defaultTTL m) true; RRemove;
                 RGet zeroT 0 false]).
Proof.
  intros Hc Hk Hv. unfold run, exec, Watch.
  destruct (watch_is_Some k v1 (defaultTTL m) t1 m Hc) as [[b1 m1] Hw1].
  rewrite Hw1. simpl.
  pose proof (watch_consistent _ _ _ _ _ _ _ Hc Hw1) as Hc1.
  apply watch_new in Hw1 as (-> & Hi1 & Hm1 & Hd1); [|done].
  assert (items m1 !! k = Some (length (mem m))) as Hk1.
  { rewrite Hi1. apply lookup_insert_eq. }
  assert (mem m1 !! length (mem m)
          = Some (mkItem k v1 (t1 + defaultTTL m) false)) as Hp1.
  { rewrite Hm1, lookup_app_r, Nat.sub_diag by done. done. }
  rewrite (watch_same _ _ _ _ _ _ _ Hk1 Hp1 eq_refl). simpl.
  destruct (watch_is_Some k v2 (defaultTTL m1) t3 m1 Hc1) as [[b3 m3] Hw3].
  rewrite Hw3. simpl.
  pose proof (watch_consistent _ _ _ _ _ _ _ Hc1 Hw3) as Hc3.
  apply (watch_refresh _ _ _ _ _ _ _ _ _ Hk1 Hp1) in Hw3
    as (-> & Hi3 & Hm3 & Hd3); [|done].
  assert (items m3 !! k = Some (length (mem m))) as Hk3 by congruence.
  assert (mem m3 !! length (mem m)
          = Some (mkItem k v2 (t3 + defaultTTL m) false)) as Hp3.
  { rewrite Hm3, list_lookup_insert_eq, Hd1; [done|].
    by eapply lookup_lt_Some. }
  rewrite (Get_live _ _ _ _ Hk3 Hp3 eq_refl). simpl.
  destruct (Remove_is_Some k m3 Hc3) as [m4 Hr4]. rewrite Hr4. simpl.
  rewrite (Get_absent k m4 (Remove_absent _ _ _ Hr4)). simpl.
  by eexists.
Qed.

(** *** Runs in which a key is not watched *)

Lemma exec_absent o m m' r k :
  watches k o = false → items m !! k = None →
  exec zeroT o m = Some (m', r) →
  items m' !! k = None ∧ k ∉ notified [r].
Proof.
  intros Hw Hk. destruct o as [k0 v now|k0|k0|now fuel|now|]; simpl.
  - destruct (Watch k0 v now m) as [[b m1]|] eqn:HW; simpl; [|done].
    intros [= <- <-]. split; [|apply not_elem_of_nil]. simpl in Hw.
    apply bool_decide_eq_false in Hw. unfold Watch, watch in HW.
    destruct (items m !! k0) as [p|] eqn:Hk0.
    + destruct (mem m !! p) as [it|]; simpl in HW; [|done].
      case_decide; [by simplify_eq|].
      destruct (heap.Fix _ _ _); simpl in HW; [|done]. by simplify_eq.
    + destruct (heap.Push _ _ _); simpl in HW; [|done]. simplify_eq.
      simpl. by rewrite lookup_insert_ne.
  - destruct (Get zeroT k0 m) as [[[v e] f]|]; simpl; [|done].
    intros [= <- <-]. split; [done|apply not_elem_of_nil].
  - destruct (Remove k0 m) as [m1|] eqn:HR; simpl; [|done].
    intros [= <- <-]. split; [|apply not_elem_of_nil]. unfold Remove in HR.
    destruct (items m !! k0) as [p|] eqn:Hk0; [|by simplify_eq].
    destruct (mem m !! p); simpl in HR; [|done]. simplify_eq. simpl.
    rewrite lookup_delete. by case_decide.
  - destruct (checkExpirations fuel now m) as [[m1 ks]|] eqn:Hc;
      simpl; [|done].
    intros [= <- <-].
    destruct (checkExpirations_absent _ _ _ _ _ _ Hc Hk) as [Hks Hk1].
    split; [done|]. simpl. by rewrite app_nil_r.
  - destruct (sweep_iter now m) as [[m1 o]|] eqn:Hi; simpl; [|done].
    intros [= <- <-]. split.
    + destruct (items m1 !! k) as [p|] eqn:Hk1; [|done].
      apply sweep_iter_frame in Hi as [_ Hsub]. apply Hsub in Hk1.
      congruence.
    + destruct o as [| |k1|]; simpl; try apply not_elem_of_nil.
      apply sweep_iter_Sent in Hi as (p & it & Hk1 & _).
      intros [->|[]%not_elem_of_nil]%elem_of_cons. congruence.
  - destruct (recv (expiredCh m)) as [[k1 c]|]; intros [= <- <-];
      (split; [done|apply not_elem_of_nil]).
Qed.

Lemma notified_cons (r : result (K:=K) (T:=T)) rs :
  notified (r :: rs) = notified [r] ++ notified rs.
Proof.
  destruct r as [| | |ks|o|]; simpl; try done.
  - by rewrite app_nil_r.
  - by destruct o.
Qed.

Lemma run_absent ops m m' rs k :
  forallb (λ o, negb (watches k o)) ops = true → items m !! k = None →
  run zeroT ops m = Some (m', rs) →
  items m' !! k = None ∧ k ∉ notified rs.
Proof.
  revert m rs. induction ops as [|o ops IH]; intros m rs Hw Hk; simpl.
  { intros [= <- <-]. split; [done|]. apply not_elem_of_nil. }
  simpl in Hw. apply andb_true_iff in Hw as [Ho Hw].
  apply negb_true_iff in Ho.
  destruct (exec zeroT o m) as [[m1 r]|] eqn:He; simpl; [|done].
  destruct (run zeroT ops m1) as [[m2 rs2]|] eqn:Hrun; simpl; [|done].
  intros [= <- <-].
  destruct (exec_absent _ _ _ _ _ Ho Hk He) as [Hk1 Hr].
  destruct (IH _ _ Hw Hk1 Hrun) as [Hk2 Hn]. split; [done|].
  rewrite notified_cons. by intros [?|?]%elem_of_app.
Qed.

(** *** Runs, piecewise *)

Lemma run_app ops1 ops2 m :
  run zeroT (ops1 ++ ops2) m
  = '(m1, rs1) ← run zeroT ops1 m;
    '(m2, rs2) ← run zeroT ops2 m1; Some (m2, rs1 ++ rs2).
Proof.
  revert m. induction ops1 as [|o ops1 IH]; intros m; simpl.
  { by destruct (run zeroT ops2 m) as [[m2 rs2]|]. }
  destruct (exec zeroT o m) as [[m1 r]|]; simpl; [|done].
  rewrite IH. destruct (run zeroT ops1 m1) as [[m2 rs1]|]; simpl; [|done].
  by destruct (run zeroT ops2 m2) as [[m3 rs2]|].
Qed.

Lemma notified_app (rs1 rs2 : list (result (K:=K) (T:=T))) :
  notified (rs1 ++ rs2) = notified rs1 ++ notified rs2.
Proof.
  induction rs1 as [|r rs1 IH]; [done|].
  rewrite <- app_comm_cons, (notified_cons r), (notified_cons r rs1), IH.
  by rewrite app_assoc.
Qed.

(** A pass that requeues and leaves the state as it found it is
    repeated for ever: with no amount of fuel does the loop exit. *)
Lemma checkExpirations_requeue_loop now m :
  sweep_iter now m = Some (m, Requeued) →
  ∀ fuel, checkExpirations fuel now m = None.
Proof.
  intros Hi fuel. induction fuel as [|fuel IH]; [done|].
  simpl. rewrite Hi. simpl. done.
Qed.

Lemma checkExpirations_Sent now m m1 k fuel :
  sweep_iter now m = Some (m1, Sent k) →
  checkExpirations (S fuel) now m
  = '(m2, ks) ← checkExpirations fuel now m1; Some (m2, k :: ks).
Proof. intros Hi. simpl. by rewrite Hi. Qed.

Lemma checkExpirations_Break now m fuel :
  sweep_iter now m = Some (m, Break) →
  checkExpirations (S fuel) now m = Some (m, []).
Proof. intros Hi. simpl. by rewrite Hi. Qed.

(** *** The claims that hold in every state *)

(** Refreshing a key defers its notification: a sweep that runs before
    the expiry set by the last [watch] does not send the key, whatever
    else is queued. *)
Lemma watch_defers_notification k v ttl now m m1 fuel t m2 ks :
  watch k v ttl now m = Some (true, m1) →
  checkExpirations fuel t m1 = Some (m2, ks) →
  t < now + ttl → k ∉ ks.
Proof.
  intros Hw Hc Ht Hin.
  destruct (checkExpirations_sent _ _ _ _ _ _ Hc Hin)
    as (p & it & Hk & Hp & _ & _ & He).
  unfold watch in Hw. destruct (items m !! k) as [q|] eqn:Hq.
  - destruct (mem m !! q) as [it0|] eqn:Hit0; simpl in Hw; [|done].
    case_decide; [done|].
    destruct (heap.Fix _ _ _); simpl in Hw; [|done]. simplify_eq.
    simpl in *. assert (q = p) as -> by congruence.
    rewrite list_lookup_insert_eq in Hp by (by eapply lookup_lt_Some).
    simplify_eq. simpl in *. lia.
  - destruct (heap.Push _ _ _); simpl in Hw; [|done]. simplify_eq.
    simpl in *. rewrite lookup_insert_eq in Hk. simplify_eq.
    rewrite lookup_app_r, Nat.sub_diag in Hp by done.
    simpl in Hp. simplify_eq. simpl in *. lia.
Qed.

(** A sweep that returns has sent only keys that were, when it started,
    keys of the table whose current entry was live and had [Expires] at
    or before [now]. *)
Lemma completed_sweep_sends_only_due fuel now m m' ks k :
  checkExpirations fuel now m = Some (m', ks) → k ∈ ks →
  ∃ v e, Get zeroT k m = Some (v, e, true) ∧ e ≤ now.
Proof.
  intros Hc Hin.
  destruct (checkExpirations_sent _ _ _ _ _ _ Hc Hin)
    as (p & it & Hk & Hp & _ & Hr & He).
  exists (Value it), (Expires it). split; [|done]. by eapply Get_live.
Qed.

(** The same for the first [n] passes of a sweep, whether or not the
    sweep ever returns: every key they send was, when the sweep started,
    a key of the table whose current entry was live and due. *)
Lemma sweep_prefix_sends_only_due n now m m' rs k :
  run zeroT (replicate n (OpPass now)) m = Some (m', rs) →
  k ∈ notified rs →
  ∃ v e, Get zeroT k m = Some (v, e, true) ∧ e ≤ now.
Proof.
  revert m rs. induction n as [|n IH]; intros m rs; simpl.
  { intros [= <- <-]. by intros ?%not_elem_of_nil. }
  destruct (sweep_iter now m) as [[m1 o]|] eqn:Hi; simpl; [|done].
  destruct (run zeroT (replicate n (OpPass now)) m1) as [[m2 rs2]|] eqn:Hrun;
    simpl; [|done].
  intros [= <- <-] Hin.
  assert (k ∈ notified rs2 →
          ∃ v e, Get zeroT k m = Some (v, e, true) ∧ e ≤ now) as Hrest.
  { intros Hin2. destruct (IH _ _ Hrun Hin2) as (v & e & Hget & He).
    exists v, e. split; [|done].
    apply sweep_iter_frame in Hi as [Hm Hsub].
    unfold Get in *. destruct (items m1 !! k) as [p|] eqn:Hk; [|done].
    by rewrite (Hsub _ _ Hk), <- Hm. }
  destruct o as [| |k0|]; simpl in Hin; try by apply Hrest.
  apply elem_of_cons in Hin as [->|Hin]; [|by apply Hrest].
  apply sweep_iter_Sent in Hi as (p & it & Hk & Hp & _ & Hr & He & _).
  exists (Value it), (Expires it). split; [|done]. by eapply Get_live.
Qed.

(** C4: every send happens in a pass through the loop body of
    [checkExpirations]. A pass that runs at time [now] and sends [k]
    finds [k] in the table with a live current entry whose [Expires] is
    at or before [now]; [Get] reports that expiry. So no sweep, whether
    it returns or not, sends a key whose expiry is still in the future at
    sweep time. *)
Theorem no_notification_before_expiry now m m' k :
  sweep_iter now m = Some (m', Sent k) →
  ∃ v e, Get zeroT k m = Some (v, e, true) ∧ e ≤ now.
Proof.
  intros Hi.
  apply sweep_iter_Sent in Hi as (p & it & Hk & Hp & _ & Hr & He & _).
  exists (Value it), (Expires it). split; [|done]. by eapply Get_live.
Qed.

(** C6: in every reachable state [Remove k] returns; right after it
    [Get k] reports not-found; and no tick, and no single pass of a
    sweep, of any later run sends [k] as long as [k] is not watched
    again. *)
Theorem Remove_suppresses_notification k m :
  reachable m →
  ∃ m', Remove k m = Some m' ∧
        Get zeroT k m' = Some (zeroT, 0, false) ∧
        ∀ ops m'' rs,
          forallb (λ o, negb (watches k o)) ops = true →
          run zeroT ops m' = Some (m'', rs) → k ∉ notified rs.
Proof.
  intros Hc%reachable_consistent.
  destruct (Remove_is_Some k m Hc) as [m' Hr]. exists m'.
  split; [done|]. apply Remove_absent in Hr. split.
  - by apply Get_absent.
  - intros ops m'' rs Hw Hrun. by eapply run_absent.
Qed.

(** C8: [watch] with the value that the key already has returns [false]
    and leaves the whole monitor as it was: entry, table and queue; the
    expiry is not refreshed. *)
Theorem watch_unchanged_value_noop k v ttl now m p it :
  items m !! k = Some p → mem m !! p = Some it → Value it = v →
  watch k v ttl now m = Some (false, m) ∧
  Watch k v now m = Some (false, m).
Proof. intros Hk Hp Hv. split; by eapply watch_same. Qed.

(** C9: in every reachable state the entry object of each key of the
    table occurs exactly once in the queue, and every queued object that
    is not tombstoned is the very object the table holds for its key. *)
Theorem table_queue_agree m :
  reachable m →
  (∀ k p, items m !! k = Some p → occurrences p (mheap m) = 1%nat) ∧
  (∀ p it, p ∈ mheap m → mem m !! p = Some it → removed it = false →
           items m !! Key it = Some p).
Proof.
  intros [Ht [Hnd Hq]]%reachable_consistent. split.
  - intros k p Hk. destruct (Ht k p Hk) as (it & _ & _ & _ & Hin).
    by apply occurrences_NoDup.
  - intros p it Hin Hp Hr. destruct (Hq p Hin) as (it' & Hp' & Hl).
    assert (it' = it) as -> by congruence. by apply Hl.
Qed.

(** C10: in every reachable state every entry of the table has
    [removed = false]. *)
Theorem table_entries_not_tombstoned m k p :
  reachable m → items m !! k = Some p →
  ∃ it, mem m !! p = Some it ∧ removed it = false.
Proof.
  intros [Ht _]%reachable_consistent Hk.
  destruct (Ht k p Hk) as (it & Hp & _ & Hr & _). by exists it.
Qed.

End monitor_facts.

(** ** Scenarios *)

Local Arguments Nat.div : simpl never.

Ltac decide_cmp :=
  repeat first [ rewrite bool_decide_eq_true_2 by lia
               | rewrite bool_decide_eq_false_2 by lia
               | rewrite decide_True by lia
               | rewrite decide_False by lia ].

Ltac run_heap :=
  unfold heap.Fix, heap.down, heap.Len; simpl; decide_cmp; simpl;
  decide_cmp; simpl.

Ltac open_watch :=
  unfold Watch, watch, starve_shape; cbn [items mem mheap defaultTTL].

Lemma four_state_reachable : reachable four_state.
Proof.
  apply (run_reachable 0 four_watched (New 100 10) four_state
           [RWatch true; RWatch true; RWatch true; RWatch true]).
  - apply reach_New.
  - vm_compute. reflexivity.
Qed.

(** *** The starvation schedule, symbolically *)

Lemma starve_table_x : starve_table !! "x" = Some (0%nat : ptr).
Proof. reflexivity. Qed.

Lemma starve_table_p : starve_table !! "p" = Some (1%nat : ptr).
Proof. reflexivity. Qed.

Lemma starve_table_y : starve_table !! "y" = Some (2%nat : ptr).
Proof. reflexivity. Qed.

Lemma starve_table_d : starve_table !! "d" = Some (3%nat : ptr).
Proof. reflexivity. Qed.

(** x at the root gets a new value: [heap.Fix(h, 0)] sinks it to index 2
    and y comes to the root. *)
Lemma starve_refresh_x v now vx ex p vy ey d :
  vx ≠ v → ey < p.2 → ey < now + 100 →
  Watch "x" v now (starve_shape [0; 1; 2; 3]%nat (vx, ex) p (vy, ey) d)
  = Some (true, starve_shape [2; 1; 0; 3]%nat (v, now + 100) p (vy, ey) d).
Proof.
  intros Hv Hp He. destruct p as [vp ep]. simpl in Hp. open_watch.
  rewrite starve_table_x. simpl. decide_cmp. simpl. by run_heap.
Qed.

(** The same with y at the root. *)
Lemma starve_refresh_y v now vx ex p vy ey d :
  vy ≠ v → ex < p.2 → ex < now + 100 →
  Watch "y" v now (starve_shape [2; 1; 0; 3]%nat (vx, ex) p (vy, ey) d)
  = Some (true, starve_shape [0; 1; 2; 3]%nat (vx, ex) p (v, now + 100) d).
Proof.
  intros Hv Hp He. destruct p as [vp ep]. simpl in Hp. open_watch.
  rewrite starve_table_y. simpl. decide_cmp. simpl. by run_heap.
Qed.

(** p, at index 1, gets a new value: [heap.Fix(h, 0)] looks at the root
    only and p stays where it is, above d. *)
Lemma starve_refresh_p (x_at_root : bool) v now vx ex vp ep vy ey d :
  vp ≠ v →
  (if x_at_root then ey < now + 100 ∧ ex ≤ ey
   else ex < now + 100 ∧ ey ≤ ex) →
  Watch "p" v now
    (starve_shape (if x_at_root then [0; 1; 2; 3]%nat else [2; 1; 0; 3]%nat)
       (vx, ex) (vp, ep) (vy, ey) d)
  = Some (true,
          starve_shape
            (if x_at_root then [0; 1; 2; 3]%nat else [2; 1; 0; 3]%nat)
            (vx, ex) (v, now + 100) (vy, ey) d).
Proof.
  intros Hv He. open_watch. rewrite starve_table_p. simpl.
  decide_cmp. simpl. destruct x_at_root, He; by run_heap.
Qed.

(** A tick while the entry at the root is not due sends nothing, whatever
    lies below the root. *)
Lemma starve_tick (x_at_root : bool) now x p y d fuel :
  (if x_at_root then now < x.2 else now < y.2) →
  checkExpirations (S fuel) now
    (starve_shape (if x_at_root then [0; 1; 2; 3]%nat else [2; 1; 0; 3]%nat)
       x p y d)
  = Some (starve_shape
            (if x_at_root then [0; 1; 2; 3]%nat else [2; 1; 0; 3]%nat)
            x p y d, []).
Proof.
  intros He. apply checkExpirations_Break.
  unfold sweep_iter, starve_shape; cbn [items mem mheap defaultTTL].
  destruct x_at_root; simpl; by decide_cmp.
Qed.

Lemma starve_round_step (b : bool) t vr er d :
  vr < t + 50 →
  run 0 (starve_round b t) (starve_state b t vr er d)
  = Some (starve_state (negb b) (t + 50) t (t + 100) d,
          [RWatch true; RWatch true; RTick []]).
Proof.
  intros Hv. unfold starve_round, starve_state, run, exec.
  replace (t + 50 + 1) with (t + 51) by lia.
  replace (t + 50 + 101) with (t + 51 + 100) by lia.
  destruct b; simpl negb; cbv iota.
  - rewrite starve_refresh_x by (simpl; lia). cbn [mbind option_bind].
    rewrite (starve_refresh_p false) by lia. cbn [mbind option_bind].
    rewrite (starve_tick false) by (simpl; lia). done.
  - rewrite starve_refresh_y by (simpl; lia). cbn [mbind option_bind].
    rewrite (starve_refresh_p true) by lia. cbn [mbind option_bind].
    rewrite (starve_tick true) by (simpl; lia). done.
Qed.

(** Whatever the setup, once the state has the shape of
    [starve_state], the rounds keep it in that shape and nothing is
    sent. *)
Lemma starve_run (setup : list sop) (rs0 : list result) (d : Z * Z) n :
  run 0 setup (New 100 10) = Some (starve_state true 0 0 100 d, rs0) →
  notified rs0 = [] →
  ∃ vr er rs,
    vr < 50 * Z.of_nat n + 50 ∧
    run 0 (setup ++ starve_rounds n) (New 100 10)
    = Some (starve_state (Nat.even n) (50 * Z.of_nat n) vr er d, rs) ∧
    notified rs = [].
Proof.
  intros Hsetup Hrs0.
  induction n as [|n (vr & er & rs & Hv & Hrun & Hrs)].
  - exists 0, 100, rs0. split; [lia|]. split; [|done].
    by rewrite app_nil_r.
  - exists (50 * Z.of_nat n), (50 * Z.of_nat n + 100),
      (rs ++ [RWatch true; RWatch true; RTick []]).
    split; [lia|]. split.
    + change (starve_rounds (S n)) with
        (starve_rounds n ++ starve_round (Nat.even n) (50 * Z.of_nat n)).
      rewrite app_assoc, run_app, Hrun. cbn [mbind option_bind].
      rewrite starve_round_step by done. cbn [mbind option_bind].
      rewrite Nat.even_succ, <- Nat.negb_even.
      by replace (50 * Z.of_nat (S n)) with (50 * Z.of_nat n + 50) by lia.
    + by rewrite notified_app, Hrs.
Qed.

Lemma starve_state_Get (b : bool) t vr er d :
  Get 0 "d" (starve_state b t vr er d) = Some (d.1, d.2, true).
Proof.
  unfold Get, starve_state.
  destruct b; unfold starve_shape; cbn [items mem];
    by rewrite starve_table_d.
Qed.

(** *** The claims about single scenarios *)

(** C1 (does not hold): after the requeue the loop of [checkExpirations]
    goes round again. With a channel of capacity one and two due keys,
    the first pass sends a, the second finds the channel full, pushes b
    back and leaves the state exactly as it found it, so the same pass
    is repeated: with no amount of fuel does the sweep return. *)
Theorem sweep_retries_for_ever_on_full_channel :
  run 0 [OpWatch "a" 1 0; OpWatch "b" 1 1] (New 100 1)
  = Some (spin_start, [RWatch true; RWatch true]) ∧
  sweep_iter 200 spin_start = Some (spin_stuck, Sent "a") ∧
  sweep_iter 200 spin_stuck = Some (spin_stuck, Requeued) ∧
  ∀ fuel, checkExpirations fuel 200 spin_start = None.
Proof.
  assert (sweep_iter 200 spin_start = Some (spin_stuck, Sent "a")) as H1.
  { vm_compute. reflexivity. }
  assert (sweep_iter 200 spin_stuck = Some (spin_stuck, Requeued)) as H2.
  { vm_compute. reflexivity. }
  split_and!; [vm_compute; reflexivity|done|done|].
  intros [|fuel]; [done|].
  rewrite (checkExpirations_Sent _ _ _ _ _ H1).
  by rewrite (checkExpirations_requeue_loop _ _ H2).
Qed.

(** C2 (does not hold): four keys are watched, the queue is a min-heap;
    then b, which sits at index 1 above d, gets a new value.
    [heap.Fix(h, 0)] looks at the root only, b keeps its place with the
    later expiry 150 above d with expiry 103, and the queue is no longer
    ordered. *)
Theorem refresh_leaves_heap_unordered :
  run 0 four_watched (New 100 10)
  = Some (four_state, [RWatch true; RWatch true; RWatch true; RWatch true]) ∧
  heap_ordered four_state = true ∧
  Watch "b" 2 50 four_state = Some (true, four_refreshed) ∧
  heap_ordered four_refreshed = false.
Proof. split_and!; vm_compute; reflexivity. Qed.

(** A refreshed key that is sent late: d is refreshed at time 10, so
    that it expires at 110, and is not touched again; b, c and e are
    refreshed later. The tick at 105 sends a and leaves b, which expires
    at 150, at the root with d below it. The ticks at 115, 125, 135 and
    145 send nothing although the channel is empty and [Get] reports the
    expiry 110 for d; d is sent by the tick at 155, after b. *)
Lemma refreshed_key_notified_late :
  snd <$> run 0 late_ops (New 100 10)
  = Some [RWatch true; RWatch true; RWatch true; RWatch true; RWatch true;
          RWatch true; RWatch true; RWatch true; RWatch true;
          RTick ["a"]; RTick []; RGet 2 110 true; RTick []; RTick [];
          RTick []; RGet 2 110 true; RTick ["b"; "d"]; RGet 0 0 false].
Proof. vm_compute. reflexivity. Qed.

(** C3 (does not hold): d is watched at time 0 and refreshed at time 1,
    so that it expires at 101, and is not touched again. While the keys
    x, y and p keep getting new values, every tick finds at the root an
    entry that is not due and stops; d, below p, is never looked at.
    After any number [n] of rounds, the last tick being at time
    [50 * n + 2], no notification has been sent, neither at nor after the
    new expiry, and [Get] still finds d with the expiry 101. *)
Theorem refreshed_key_never_notified (n : nat) :
  ∃ m rs,
    run 0 (refresh_setup ++ starve_rounds n) (New 100 10) = Some (m, rs) ∧
    notified rs = [] ∧
    Get 0 "d" m = Some (8, 101, true).
Proof.
  destruct (starve_run refresh_setup
              [RWatch true; RWatch true; RWatch true; RWatch true;
               RWatch true; RWatch true] (8, 101) n)
    as (vr & er & rs & _ & Hrun & Hrs); [vm_compute; reflexivity|done|].
  eexists _, rs. split_and!; [done..|]. apply starve_state_Get.
Qed.

(** C5 (does not hold): the same with d watched once, at time 0, and
    expiring at 100: after any number [n] of rounds nothing has been
    sent and [Get] still finds d with its expiry 100. *)
Theorem watched_once_never_notified (n : nat) :
  ∃ m rs,
    run 0 (starve_setup ++ starve_rounds n) (New 100 10) = Some (m, rs) ∧
    notified rs = [] ∧
    Get 0 "d" m = Some (7, 100, true).
Proof.
  destruct (starve_run starve_setup
              [RWatch true; RWatch true; RWatch true; RWatch true;
               RWatch true] (7, 100) n)
    as (vr & er & rs & _ & Hrun & Hrs); [vm_compute; reflexivity|done|].
  eexists _, rs. split_and!; [done..|]. apply starve_state_Get.
Qed.

(** C7: the scenario of [TestBasicOperations] for the key s, from any
    reachable state that does not track s. *)
Theorem basic_operations_scenario (m : SMonitor) (t1 t2 t3 : Z) :
  reachable m → items m !! "s" = None →
  ∃ m',
    run 0 [OpWatch "s" 1 t1; OpWatch "s" 1 t2; OpWatch "s" 2 t3;
           OpGet "s"; OpRemove "s"; OpGet "s"] m
    = Some (m', [RWatch true; RWatch false; RWatch true;
                 RGet 2 (t3 + defaultTTL m) true; RRemove;
                 RGet 0 0 false]).
Proof.
  intros Hr Hs. apply watch_get_remove_trace; [|done..].
  by apply reachable_consistent.
Qed.

(** *** Instances of the general claims *)

(** The pass that sends a in the sweep that never returns
    ([sweep_retries_for_ever_on_full_channel]). *)
Lemma no_notification_before_expiry_witness :
  ∃ v e, Get 0 "a" spin_start = Some (v, e, true) ∧ e ≤ 200.
Proof.
  apply (no_notification_before_expiry 0 200 spin_start spin_stuck "a").
  vm_compute. reflexivity.
Defined.

(** The first five passes of that sweep: a is sent, then b is pushed
    back four times; a was due when the sweep started. *)
Lemma spinning_sweep_sends_only_due :
  snd <$> run 0 (replicate 5 (OpPass 200)) spin_start
  = Some [RPass (Sent "a"); RPass Requeued; RPass Requeued;
          RPass Requeued; RPass Requeued] ∧
  ∃ v e, Get 0 "a" spin_start = Some (v, e, true) ∧ e ≤ 200.
Proof.
  split; [vm_compute; reflexivity|].
  eapply (sweep_prefix_sends_only_due 0 5 200 spin_start _
            [RPass (Sent "a"); RPass Requeued; RPass Requeued;
             RPass Requeued; RPass Requeued] "a").
  - vm_compute. reflexivity.
  - by left.
Qed.

Lemma Remove_suppresses_notification_witness :
  ∃ m', Remove "b" four_state = Some m' ∧
        Get 0 "b" m' = Some (0, 0, false) ∧
        ∀ ops m'' rs,
          forallb (λ o, negb (watches "b" o)) ops = true →
          run 0 ops m' = Some (m'', rs) → "b" ∉ notified rs.
Proof.
  apply (Remove_suppresses_notification 0 "b" four_state).
  apply four_state_reachable.
Defined.

(** The same instance, run: after [Remove "b"] a tick at time 200 sends
    a, c and d only. *)
Lemma Remove_then_tick :
  Remove "b" four_state = Some four_removed ∧
  snd <$> run 0 [OpGet "b"; OpTick 200 10] four_removed
  = Some [RGet 0 0 false; RTick ["a"; "c"; "d"]].
Proof. split; vm_compute; reflexivity. Qed.

Lemma basic_operations_scenario_witness :
  ∃ m',
    run 0 [OpWatch "s" 1 0; OpWatch "s" 1 5; OpWatch "s" 2 9;
           OpGet "s"; OpRemove "s"; OpGet "s"] four_state
    = Some (m', [RWatch true; RWatch false; RWatch true;
                 RGet 2 (9 + defaultTTL four_state) true; RRemove;
                 RGet 0 0 false]).
Proof.
  apply (basic_operations_scenario four_state 0 5 9).
  - apply four_state_reachable.
  - vm_compute. reflexivity.
Defined.

Lemma watch_unchanged_value_noop_witness :
  watch "a" 1 100 40 four_state = Some (false, four_state) ∧
  Watch "a" 1 40 four_state = Some (false, four_state).
Proof.
  apply (watch_unchanged_value_noop "a" 1 100 40 four_state 0%nat
           (mkItem "a" 1 100 false)).
  - vm_compute. reflexivity.
  - reflexivity.
  - reflexivity.
Defined.

Lemma table_queue_agree_witness :
  (∀ k p, items four_state !! k = Some p →
          occurrences p (mheap four_state) = 1%nat) ∧
  (∀ p it, p ∈ mheap four_state → mem four_state !! p = Some it →
           removed it = false → items four_state !! Key it = Some p).
Proof. apply (table_queue_agree four_state), four_state_reachable. Defined.

Lemma table_entries_not_tombstoned_witness :
  ∃ it, mem four_state !! 1%nat = Some it ∧ removed it = false.
Proof.
  apply (table_entries_not_tombstoned four_state "b" 1%nat).
  - apply four_state_reachable.
  - vm_compute. reflexivity.
Defined.

(** ** container/heap keeps the min-heap ordering *)

Lemma parent_0 : parent 0 = 0%nat.
Proof. reflexivity. Qed.

Lemma parent_spec j :
  (0 < j)%nat → (j = 2 * parent j + 1 ∨ j = 2 * parent j + 2)%nat.
Proof.
  intros Hj. unfold parent.
  pose proof (Nat.div_mod_eq (j - 1) 2).
  pose proof (Nat.mod_upper_bound (j - 1) 2). lia.
Qed.

Lemma parent_left i : parent (2 * i + 1) = i.
Proof.
  unfold parent. replace (2 * i + 1 - 1)%nat with (i * 2)%nat by lia.
  apply Nat.div_mul. lia.
Qed.

Lemma parent_right i : parent (2 * i + 1 + 1) = i.
Proof.
  unfold parent. replace (2 * i + 1 + 1 - 1)%nat with (1 + i * 2)%nat by lia.
  rewrite Nat.div_add by lia. reflexivity.
Qed.

Ltac parents :=
  repeat match goal with
  | |- context [parent ?j] =>
      lazymatch goal with
      | _ : (0 < j)%nat → _ |- _ => fail
      | _ => pose proof (parent_spec j)
      end
  | _ : context [parent ?j] |- _ =>
      lazymatch goal with
      | _ : (0 < j)%nat → _ |- _ => fail
      | _ => pose proof (parent_spec j)
      end
  end.

Ltac same_lookups :=
  repeat match goal with
  | H1 : ?l !! ?i = Some ?a, H2 : ?l !! ?i = Some ?b |- _ =>
      assert (b = a) by congruence; subst b; clear H2
  end.

Section heap_order_facts.
Context {A : Type}.
Variable before : A → A → option bool.
Variable ok : A → Prop.
Variable rank : A → Z.
Hypothesis before_rank :
  ∀ a b, ok a → ok b → before a b = Some (bool_decide (rank a < rank b)).

Local Arguments Nat.div : simpl never.
Local Arguments Nat.mul : simpl never.

Lemma Less_rank (h : list A) i j a b :
  Forall ok h → h !! i = Some a → h !! j = Some b →
  heap.Less before h i j = Some (bool_decide (rank a < rank b)).
Proof.
  intros Hok Hi Hj. unfold heap.Less. rewrite Hi, Hj. simpl.
  apply before_rank; eapply Forall_lookup_1; eauto.
Qed.

Lemma le_at_Swap_ne (h h' : list A) i j k l :
  heap.Swap h i j = Some h' → k ≠ i → k ≠ j → l ≠ i → l ≠ j →
  le_at rank h k l → le_at rank h' k l.
Proof.
  intros Hs ? ? ? ? Hle a b.
  rewrite !(Swap_lookup_ne _ _ _ _ _ Hs) by done. apply Hle.
Qed.

Lemma Swap_lookups (h h' : list A) i j a b :
  heap.Swap h i j = Some h' → h !! i = Some a → h !! j = Some b →
  h' !! i = Some b ∧ h' !! j = Some a ∧
  ∀ k, k ≠ i → k ≠ j → h' !! k = h !! k.
Proof.
  intros Hs Hi Hj. split_and!.
  - by rewrite (Swap_lookup_l _ _ _ _ Hs).
  - by rewrite (Swap_lookup_r _ _ _ _ Hs).
  - intros k ? ?. by eapply Swap_lookup_ne.
Qed.

(** [down] restores the ordering of the first [n] elements. *)
Lemma down_loop_ordered fuel (h h' : list A) i i' n :
  Forall ok h → (n ≤ length h)%nat → down_ready rank h i n →
  heap.down_loop before fuel h i n = Some (h', i') →
  ordered_upto rank h' n.
Proof.
  revert h i. induction fuel as [|fuel IH]; intros h i Hok Hn [Hd1 Hd2];
    simpl; [done|].
  case_decide as Hj1.
  { intros [= <- _]. intros k Hk. apply Hd1; [done|].
    intros Hp. pose proof (parent_spec k). lia. }
  assert (i < length h)%nat as Hi by lia.
  apply lookup_lt_is_Some in Hi as [a Ha].
  assert (is_Some (h !! (2 * i + 1)%nat)) as [b1 Hb1].
  { apply lookup_lt_is_Some. lia. }
  assert (∃ j c,
    (if decide (2 * i + 1 + 1 < n)%nat
     then c0 ← heap.Less before h (2 * i + 1 + 1) (2 * i + 1);
          Some (if c0 : bool then (2 * i + 1 + 1)%nat else (2 * i + 1)%nat)
     else Some (2 * i + 1)%nat) = Some j ∧
    (i < j < n)%nat ∧ parent j = i ∧ h !! j = Some c ∧
    ∀ k d, (0 < k < n)%nat → parent k = i → h !! k = Some d →
           rank c ≤ rank d) as (j & c & -> & Hij & Hpj & Hc & Hmin).
  { case_decide as Hj2.
    - assert (is_Some (h !! (2 * i + 1 + 1)%nat)) as [b2 Hb2].
      { apply lookup_lt_is_Some. lia. }
      rewrite (Less_rank _ _ _ _ _ Hok Hb2 Hb1). simpl.
      case_bool_decide as Hlt.
      + exists (2 * i + 1 + 1)%nat, b2.
        split_and!; [done|lia|lia|apply parent_right|done|].
        intros k d Hk Hpk Hd. pose proof (parent_spec k).
        assert (k = 2 * i + 1 ∨ k = 2 * i + 1 + 1)%nat as [Hk'|Hk'] by lia;
          subst k; same_lookups; lia.
      + exists (2 * i + 1)%nat, b1.
        split_and!; [done|lia|lia|apply parent_left|done|].
        intros k d Hk Hpk Hd. pose proof (parent_spec k).
        assert (k = 2 * i + 1 ∨ k = 2 * i + 1 + 1)%nat as [Hk'|Hk'] by lia;
          subst k; same_lookups; lia.
    - exists (2 * i + 1)%nat, b1.
      split_and!; [done|lia|lia|apply parent_left|done|].
      intros k d Hk Hpk Hd. pose proof (parent_spec k).
      assert (k = 2 * i + 1)%nat as -> by lia. same_lookups. lia. }
  simpl. rewrite (Less_rank _ _ _ _ _ Hok Hc Ha). simpl.
  case_bool_decide as Hlt; simpl.
  2:{ intros [= <- _]. intros k Hk.
    destruct (decide (parent k = i)) as [Hpk|Hpk]; [|by apply Hd1].
    rewrite Hpk. intros a' d Ha' Hd. same_lookups.
    specialize (Hmin k d Hk Hpk Hd). lia. }
  destruct (heap.Swap h i j) as [h1|] eqn:Hs; simpl; [|done].
  destruct (Swap_lookups _ _ _ _ _ _ Hs Ha Hc) as (Hi1 & Hj1' & Hother).
  intros Hrec. eapply IH; [..|exact Hrec].
  - by rewrite (Swap_perm _ _ _ _ Hs).
  - by rewrite (Swap_length _ _ _ _ Hs).
  - split.
    + intros k Hk Hpk. pose proof (parent_spec k).
      destruct (decide (k = j)) as [->|Hkj].
      { rewrite Hpj. intros x y Hx Hy. same_lookups. lia. }
      destruct (decide (parent k = i)) as [Hpi|Hpi].
      { rewrite Hpi. intros x y Hx Hy. rewrite Hother in Hy by lia.
        same_lookups. by eapply Hmin. }
      destruct (decide (k = i)) as [->|Hki].
      { intros x y Hx Hy. rewrite Hother in Hx by lia. same_lookups.
        eapply (Hd2 j); [lia|done|lia|done|done]. }
      eapply le_at_Swap_ne; [done|done|done|done|done|]. by apply Hd1.
    + intros k Hk Hpk Hj. rewrite Hpj. pose proof (parent_spec k).
      intros x y Hx Hy. rewrite Hother in Hy by lia. same_lookups.
      eapply (Hd1 k); [done|lia| |done]. by rewrite Hpk.
Qed.

(** [up] restores the ordering of the whole slice. *)
Lemma up_loop_ordered fuel (h h' : list A) j :
  Forall ok h → (j < length h)%nat → up_ready rank h j →
  heap.up_loop before fuel h j = Some h' →
  ordered_upto rank h' (length h').
Proof.
  revert h j. induction fuel as [|fuel IH]; intros h j Hok Hj [Hu1 Hu2];
    simpl; [done|].
  fold (parent j). case_decide as Hpj.
  { intros [= <-]. intros k Hk. apply Hu1; [done|].
    intros ->. pose proof (parent_spec j). lia. }
  assert (0 < j)%nat as Hj0.
  { destruct j; [|lia]. by rewrite parent_0 in Hpj. }
  pose proof (parent_spec j Hj0) as Hps.
  apply lookup_lt_is_Some in Hj as [b Hb].
  assert (is_Some (h !! parent j)) as [a Ha].
  { apply lookup_lt_is_Some. apply lookup_lt_Some in Hb. lia. }
  rewrite (Less_rank _ _ _ _ _ Hok Hb Ha). simpl.
  case_bool_decide as Hlt; simpl.
  2:{ intros [= <-]. intros k Hk.
    destruct (decide (k = j)) as [->|Hkj]; [|by apply Hu1].
    intros x y Hx Hy. same_lookups. lia. }
  destruct (heap.Swap h (parent j) j) as [h1|] eqn:Hs; simpl; [|done].
  destruct (Swap_lookups _ _ _ _ _ _ Hs Ha Hb) as (Hi1 & Hj1 & Hother).
  pose proof (Swap_length _ _ _ _ Hs) as Hlen.
  intros Hrec. eapply IH; [..|exact Hrec].
  - by rewrite (Swap_perm _ _ _ _ Hs).
  - rewrite Hlen. apply lookup_lt_Some in Ha. lia.
  - split.
    + rewrite Hlen. intros k Hk Hki. pose proof (parent_spec k).
      destruct (decide (k = j)) as [->|Hkj].
      { intros x y Hx Hy. same_lookups. lia. }
      destruct (decide (parent k = parent j)) as [Hpi|Hpi].
      { rewrite Hpi. intros x y Hx Hy. rewrite Hother in Hy by lia.
        same_lookups. assert (rank a ≤ rank y); [|lia].
        eapply (Hu1 k); [done|done| |done]. by rewrite Hpi. }
      destruct (decide (parent k = j)) as [Hpk|Hpk].
      { rewrite Hpk. intros x y Hx Hy. rewrite Hother in Hy by lia.
        same_lookups. eapply (Hu2 k); done. }
      eapply le_at_Swap_ne; [done|done|done|done|done|]. by apply Hu1.
    + rewrite Hlen. intros k Hk Hpk Hi0. pose proof (parent_spec k).
      pose proof (parent_spec (parent j) Hi0).
      assert (is_Some (h !! parent (parent j))) as [g Hg].
      { apply lookup_lt_is_Some. apply lookup_lt_Some in Ha. lia. }
      assert (rank g ≤ rank a) as Hga.
      { eapply (Hu1 (parent j)); [|lia|done|done].
        apply lookup_lt_Some in Ha. lia. }
      intros x y Hx Hy. rewrite Hother in Hx by lia. same_lookups.
      destruct (decide (k = j)) as [->|Hkj]; [by same_lookups|].
      rewrite Hother in Hy by lia.
      assert (rank a ≤ rank y); [|lia].
      eapply (Hu1 k); [done|done| |done]. by rewrite Hpk.
Qed.

Lemma Push_ordered (h h' : list A) x :
  Forall ok h → ok x → ordered_upto rank h (length h) →
  heap.Push before h x = Some h' → ordered_upto rank h' (length h').
Proof.
  intros Hok Hx Hord. unfold heap.Push, heap.up, heap.append, heap.Len.
  rewrite length_app. change (length [x]) with 1%nat.
  replace (length h + 1 - 1)%nat with (length h) by lia.
  apply up_loop_ordered.
  - apply Forall_app. split; [done|]. by constructor.
  - rewrite length_app. simpl. lia.
  - split; rewrite length_app; simpl.
    + intros k Hk Hne. pose proof (parent_spec k).
      intros a b. rewrite !lookup_app_l by lia. apply Hord. lia.
    + intros k Hk Hpk. pose proof (parent_spec k). lia.
Qed.

Lemma Pop_ordered (h h' : list A) x :
  Forall ok h → ordered_upto rank h (length h) →
  heap.Pop before h = Some (x, h') → ordered_upto rank h' (length h').
Proof.
  intros Hok Hord. unfold heap.Pop, heap.Len. case_decide as Hlen; [done|].
  destruct (heap.Swap h 0 (length h - 1)) as [h1|] eqn:Hs; simpl; [|done].
  destruct (heap.down before h1 0 (length h - 1)) as [[h2 b]|] eqn:Hd;
    simpl; [|done].
  unfold heap.pop_last. destruct (last h2) as [y|] eqn:Hy; simpl; [|done].
  intros [= -> <-]. unfold heap.down in Hd.
  destruct (heap.down_loop before (S (length h - 1)) h1 0 (length h - 1))
    as [[h3 i3]|] eqn:Hl; simpl in Hd; simplify_eq.
  pose proof (Swap_length _ _ _ _ Hs) as Hl1.
  assert (length h2 = length h) as Hl2.
  { by rewrite (down_loop_perm _ _ _ _ _ _ _ Hl), Hl1. }
  assert (ordered_upto rank h2 (length h - 1)) as Hord2.
  { eapply down_loop_ordered; [| | |exact Hl].
    - by rewrite (Swap_perm _ _ _ _ Hs).
    - lia.
    - split; [|lia]. intros j Hj Hpj. pose proof (parent_spec j).
      eapply le_at_Swap_ne; [done|lia..|]. apply Hord. lia. }
  rewrite length_take, Hl2.
  replace (length h - 1 `min` length h)%nat with (length h - 1)%nat by lia.
  intros j Hj. pose proof (parent_spec j). intros a c.
  rewrite !lookup_take_lt by lia. apply (Hord2 j). lia.
Qed.

Lemma Fix_0_ordered (h h' : list A) :
  Forall ok h → down_ready rank h 0 (length h) →
  heap.Fix before h 0 = Some h' → ordered_upto rank h' (length h').
Proof.
  intros Hok Hd. unfold heap.Fix, heap.down, heap.Len.
  destruct (heap.down_loop before (S (length h)) h 0 (length h))
    as [[h1 i1]|] eqn:Hl; simpl; [|done].
  assert (ordered_upto rank h1 (length h1)) as Hord.
  { replace (length h1) with (length h)
      by (by rewrite (down_loop_perm _ _ _ _ _ _ _ Hl)).
    by eapply down_loop_ordered. }
  case_bool_decide; simpl; [by intros [= <-]|].
  unfold heap.up. simpl. by intros [= <-].
Qed.

(** In an ordered heap no element ranks below the root. *)
Lemma root_least (h : list A) :
  ordered_upto rank h (length h) → ∀ j, le_at rank h 0%nat j.
Proof.
  intros Hord j. induction (lt_wf j) as [j _ IH].
  destruct (decide (j = 0%nat)) as [->|Hj].
  { intros a b Ha Hb. simplify_eq. lia. }
  intros a b Ha Hb. pose proof (parent_spec j).
  assert (j < length h)%nat as Hlt by (by eapply lookup_lt_Some).
  assert (is_Some (h !! parent j)) as [c Hc].
  { apply lookup_lt_is_Some. lia. }
  assert (rank a ≤ rank c) by (eapply (IH (parent j)); [lia|done..]).
  assert (rank c ≤ rank b) by (eapply (Hord j); [lia|done..]).
  lia.
Qed.

(** The executable test [heap.ordered] decides the ordering. *)
Lemma ordered_spec (h : list A) :
  Forall ok h →
  heap.ordered before h = true ↔ ordered_upto rank h (length h).
Proof.
  intros Hok. unfold heap.ordered. rewrite forallb_forall. split.
  - intros Hall j Hj a b Ha Hb.
    specialize (Hall j). unfold heap.ordered_at in Hall. fold (parent j) in Hall.
    rewrite (Less_rank _ _ _ _ _ Hok Hb Ha) in Hall.
    case_bool_decide; [|lia]. discriminate Hall. apply in_seq. lia.
  - intros Hord j [Hj1 Hj2]%in_seq. unfold heap.ordered_at. fold (parent j).
    pose proof (parent_spec j).
    assert (is_Some (h !! j)) as [b Hb] by (apply lookup_lt_is_Some; lia).
    assert (is_Some (h !! parent j)) as [a Ha]
      by (apply lookup_lt_is_Some; lia).
    rewrite (Less_rank _ _ _ _ _ Hok Hb Ha).
    rewrite bool_decide_eq_false_2; [done|].
    assert (rank a ≤ rank b); [|lia]. eapply (Hord j); [lia|done..].
Qed.

End heap_order_facts.

(** ** The monitor: when the queue stays a min-heap *)

Section monitor_order.
Context {K T : Type}.
Context `{Countable K, EqDecision T}.
Variable zeroT : T.

Implicit Types (m : Monitor (K:=K) (T:=T)) (σ : list (item (K:=K) (T:=T))).
Implicit Types (p q : ptr) (k : K) (v : T).

Lemma before_expiry σ a b :
  is_Some (σ !! a) → is_Some (σ !! b) →
  before σ a b = Some (bool_decide (expiry σ a < expiry σ b)).
Proof.
  intros [x Hx] [y Hy]. unfold before, expiry. by rewrite Hx, Hy.
Qed.

Lemma heap_ordered_spec m :
  Forall (λ p, is_Some (mem m !! p)) (mheap m) →
  heap_ordered m = true ↔
  ordered_upto (expiry (mem m)) (mheap m) (length (mheap m)).
Proof.
  intros Hv. unfold heap_ordered.
  by apply (ordered_spec _ _ _ (before_expiry (mem m))).
Qed.

(** Entries with the same expiries give the same ordering. *)
Lemma ordered_upto_ext σ σ' (h : list ptr) n :
  (∀ p, p ∈ h → expiry σ' p = expiry σ p) →
  ordered_upto (expiry σ) h n → ordered_upto (expiry σ') h n.
Proof.
  intros Heq Hord j Hj a b Ha Hb.
  rewrite !Heq by (by eapply list_elem_of_lookup_2).
  by eapply (Hord j).
Qed.

(** X7: [watch] keeps the queue ordered whenever the entry it updates in
    place is the one at index 0, the index that it passes to [heap.Fix];
    a new key and an unchanged value are always fine. *)
Theorem watch_keeps_order k v ttl now m b m' :
  reachable m → heap_ordered m = true →
  (∀ p it, items m !! k = Some p → mem m !! p = Some it → Value it ≠ v →
           mheap m !! 0%nat = Some p) →
  watch k v ttl now m = Some (b, m') →
  heap_ordered m' = true.
Proof.
  intros Hc%reachable_consistent Hord Hroot Hw.
  pose proof (watch_consistent _ _ _ _ _ _ _ Hc Hw) as Hc'.
  destruct Hc as [Ht Hq]. pose proof (queue_ok_valid m Hq) as Hv.
  apply heap_ordered_spec in Hord; [|done].
  apply heap_ordered_spec; [apply queue_ok_valid, Hc'|].
  clear Hc'. destruct Hq as [Hnd Hq]. unfold watch in Hw.
  destruct (items m !! k) as [p|] eqn:Hk.
  - destruct (Ht k p Hk) as (it & Hit & _).
    rewrite Hit in Hw. simpl in Hw. case_decide as Hval; [by simplify_eq|].
    specialize (Hroot p it eq_refl Hit Hval).
    destruct (heap.Fix _ _ _) as [h|] eqn:Hf; simpl in Hw; [|done].
    simplify_eq. simpl.
    eapply (Fix_0_ordered _ _ _ (before_expiry _)); [|..|exact Hf].
    + by apply valid_insert.
    + split; [|lia]. intros j Hj Hpj a c Ha Hc. pose proof (parent_spec j).
      assert (a ≠ p).
      { intros ->. pose proof (NoDup_lookup _ _ _ _ Hnd Ha Hroot). lia. }
      assert (c ≠ p).
      { intros ->. pose proof (NoDup_lookup _ _ _ _ Hnd Hc Hroot). lia. }
      unfold expiry. rewrite !list_lookup_insert_ne by done.
      by eapply (Hord j).
  - destruct (heap.Push _ _ _) as [h|] eqn:Hp; simpl in Hw; [|done].
    simplify_eq. simpl.
    eapply (Push_ordered _ _ _ (before_expiry _)); [| | |exact Hp].
    + by apply valid_app.
    + apply lookup_lt_is_Some. rewrite length_app. simpl. lia.
    + eapply ordered_upto_ext; [|done]. intros q Hq'.
      destruct (Hq q Hq') as (it0 & Hit0 & _). unfold expiry.
      by rewrite lookup_app_l by (by eapply lookup_lt_Some).
Qed.

(** X8: [Remove] keeps the queue ordered: the tombstone does not change the
    expiry. *)
Theorem Remove_keeps_order k m m' :
  reachable m → heap_ordered m = true → Remove k m = Some m' →
  heap_ordered m' = true.
Proof.
  intros Hc%reachable_consistent Hord Hr.
  pose proof (Remove_consistent _ _ _ Hc Hr) as Hc'.
  destruct Hc as [Ht Hq]. pose proof (queue_ok_valid m Hq) as Hv.
  apply heap_ordered_spec in Hord; [|done].
  apply heap_ordered_spec; [apply queue_ok_valid, Hc'|].
  clear Hc'. unfold Remove in Hr.
  destruct (items m !! k) as [p|]; [|by simplify_eq].
  destruct (mem m !! p) as [it|] eqn:Hit; simpl in Hr; [|done].
  simplify_eq. simpl. eapply ordered_upto_ext; [|done].
  intros q _. unfold expiry. destruct (decide (q = p)) as [->|Hne].
  - rewrite list_lookup_insert_eq by (by eapply lookup_lt_Some).
    by rewrite Hit.
  - by rewrite list_lookup_insert_ne.
Qed.

(** One pass of the sweep keeps the queue ordered. *)
Lemma sweep_iter_keeps_order now m m' o :
  consistent m → heap_ordered m = true →
  sweep_iter now m = Some (m', o) → heap_ordered m' = true.
Proof.
  intros Hc Hord Hi.
  pose proof (sweep_iter_consistent _ _ _ _ Hc Hi) as Hc'.
  destruct Hc as [Ht Hq]. pose proof (queue_ok_valid m Hq) as Hv.
  apply heap_ordered_spec in Hord; [|done].
  apply heap_ordered_spec; [apply queue_ok_valid, Hc'|].
  clear Hc'. unfold sweep_iter in Hi.
  destruct (mheap m !! 0%nat) as [p|] eqn:H0; [|by simplify_eq].
  destruct (mem m !! p) as [it|] eqn:Hit; simpl in Hi; [|done].
  case_decide; [by simplify_eq|].
  destruct (heap.Pop _ _) as [[x h]|] eqn:Hpop; simpl in Hi; [|done].
  pose proof (Pop_ordered _ _ _ (before_expiry _) _ _ _ Hv Hord Hpop) as Hord1.
  apply Pop_spec in Hpop as [Hx Hperm].
  destruct (negb (removed it) && _); [|by simplify_eq].
  destruct (try_send _ _); [by simplify_eq|].
  destruct (heap.Push _ _ _) as [h'|] eqn:Hpush; simpl in Hi; [|done].
  simplify_eq. simpl.
  eapply (Push_ordered _ _ _ (before_expiry _)); [| |done|exact Hpush].
  - rewrite Hperm in Hv. by apply Forall_cons in Hv as [_ ?].
  - by eexists.
Qed.

(** *** What a pass and a whole sweep do to the state *)

Lemma sweep_iter_effect now m m' o :
  sweep_iter now m = Some (m', o) →
  mem m' = mem m ∧ defaultTTL m' = defaultTTL m ∧
  match o with
  | Break =>
      m' = m ∧
      (mheap m !! 0%nat = None ∨
       ∃ p it, mheap m !! 0%nat = Some p ∧ mem m !! p = Some it ∧
               now < Expires it)
  | Dropped =>
      items m' = items m ∧ expiredCh m' = expiredCh m ∧
      ∃ p, mheap m ≡ₚ p :: mheap m'
  | Sent k =>
      items m' = delete k (items m) ∧
      expiredCh m'
      = mkChan (cap (expiredCh m)) (buf (expiredCh m) ++ [k]) ∧
      (length (buf (expiredCh m)) < cap (expiredCh m))%nat ∧
      ∃ p, mheap m ≡ₚ p :: mheap m'
  | Requeued =>
      items m' = items m ∧ expiredCh m' = expiredCh m ∧
      mheap m' ≡ₚ mheap m ∧
      ¬ (length (buf (expiredCh m)) < cap (expiredCh m))%nat
  end.
Proof.
  unfold sweep_iter.
  destruct (mheap m !! 0%nat) as [p|] eqn:H0.
  2:{ intros [= <- <-]. split_and!; try done. by left. }
  destruct (mem m !! p) as [it|] eqn:Hit; simpl; [|done].
  case_decide.
  { intros [= <- <-]. split_and!; try done. right. by exists p, it. }
  destruct (heap.Pop _ _) as [[x h]|] eqn:Hpop; simpl; [|done].
  apply Pop_spec in Hpop as [Hx Hperm].
  destruct (negb (removed it) && _).
  - unfold try_send. case_decide as Hroom.
    + intros [= <- <-]. simpl. split_and!; try done. by exists x.
    + destruct (heap.Push _ _ _) as [h'|] eqn:Hpush; simpl; [|done].
      intros [= <- <-]. simpl. split_and!; try done.
      apply Push_perm in Hpush. rewrite Hpush, Hperm.
      by assert (x = p) as -> by congruence.
  - intros [= <- <-]. simpl. split_and!; try done. by exists x.
Qed.

Lemma checkExpirations_consistent fuel now m m' ks :
  consistent m → checkExpirations fuel now m = Some (m', ks) →
  consistent m'.
Proof.
  revert m ks. induction fuel as [|fuel IH]; intros m ks Hc; simpl; [done|].
  destruct (sweep_iter now m) as [[m1 o]|] eqn:Hi; simpl; [|done].
  pose proof (sweep_iter_consistent _ _ _ _ Hc Hi) as Hc1.
  destruct o; [by intros [= <- _]|by apply IH| |by apply IH].
  destruct (checkExpirations fuel now m1) as [[m2 ks2]|] eqn:Hrec;
    simpl; [|done].
  intros [= <- _]. by eapply IH.
Qed.

(** X9: a sweep that returns leaves the entries and the TTL alone,
    appends the keys it reports to the channel, in order, and deletes
    from the table exactly those keys. *)
Theorem checkExpirations_effect fuel now m m' ks :
  checkExpirations fuel now m = Some (m', ks) →
  mem m' = mem m ∧ defaultTTL m' = defaultTTL m ∧
  cap (expiredCh m') = cap (expiredCh m) ∧
  buf (expiredCh m') = buf (expiredCh m) ++ ks ∧
  ∀ k, items m' !! k = if decide (k ∈ ks) then None else items m !! k.
Proof.
  revert m ks. induction fuel as [|fuel IH]; intros m ks; simpl; [done|].
  destruct (sweep_iter now m) as [[m1 o]|] eqn:Hi; simpl; [|done].
  apply sweep_iter_effect in Hi as (Hm & Ht & Ho).
  destruct o as [| |k0|].
  - destruct Ho as [-> _]. intros [= <- <-].
    rewrite app_nil_r. split_and!; try done.
  - destruct Ho as (Hi & Hch & _). intros Hrec.
    apply IH in Hrec as (? & ? & ? & ? & Hk).
    split_and!; try congruence. intros k. by rewrite Hk, Hi.
  - destruct Ho as (Hi & Hch & _ & _).
    destruct (checkExpirations fuel now m1) as [[m2 ks2]|] eqn:Hrec;
      simpl; [|done].
    intros [= <- <-]. apply IH in Hrec as (? & ? & Hcap & Hbuf & Hk).
    rewrite Hch in Hcap, Hbuf. simpl in *.
    split_and!; try congruence.
    { by rewrite Hbuf, <- app_assoc. }
    intros k. rewrite Hk, Hi. destruct (decide (k = k0)) as [->|Hne].
    + rewrite lookup_delete_eq, (decide_True (P:=k0 ∈ k0 :: ks2));
        [by case_decide|by left].
    + rewrite lookup_delete_ne by done.
      destruct (decide (k ∈ ks2)).
      * rewrite decide_True; [done|by right].
      * rewrite decide_False; [done|].
        by intros [?|?]%elem_of_cons.
  - destruct Ho as (Hi & Hch & _). intros Hrec.
    apply IH in Hrec as (? & ? & ? & ? & Hk).
    split_and!; try congruence. intros k. by rewrite Hk, Hi.
Qed.

(** X10: a sweep never reports a key twice. *)
Theorem checkExpirations_NoDup fuel now m m' ks :
  checkExpirations fuel now m = Some (m', ks) → NoDup ks.
Proof.
  revert m ks. induction fuel as [|fuel IH]; intros m ks; simpl; [done|].
  destruct (sweep_iter now m) as [[m1 o]|] eqn:Hi; simpl; [|done].
  destruct o as [| |k0|];
    [intros [= _ <-]; constructor|by apply IH| |by apply IH].
  destruct (checkExpirations fuel now m1) as [[m2 ks2]|] eqn:Hrec;
    simpl; [|done].
  intros [= <- <-]. constructor; [|by eapply IH].
  apply sweep_iter_effect in Hi as (_ & _ & Hi & _).
  eapply checkExpirations_absent; [done|].
  rewrite Hi. apply lookup_delete_eq.
Qed.

(** X11: when a sweep returns, the queue is empty or the entry at its
    head is not due. *)
Theorem checkExpirations_exit fuel now m m' ks :
  checkExpirations fuel now m = Some (m', ks) →
  mheap m' !! 0%nat = None ∨
  ∃ p it, mheap m' !! 0%nat = Some p ∧ mem m' !! p = Some it ∧
          now < Expires it.
Proof.
  revert m ks. induction fuel as [|fuel IH]; intros m ks; simpl; [done|].
  destruct (sweep_iter now m) as [[m1 o]|] eqn:Hi; simpl; [|done].
  destruct o as [| |k0|]; [|by apply IH| |by apply IH].
  - apply sweep_iter_effect in Hi as (_ & _ & -> & Hhead).
    by intros [= <- _].
  - destruct (checkExpirations fuel now m1) as [[m2 ks2]|] eqn:Hrec;
      simpl; [|done].
    intros [= <- _]. by eapply IH.
Qed.

Lemma checkExpirations_keeps_order fuel now m m' ks :
  consistent m → heap_ordered m = true →
  checkExpirations fuel now m = Some (m', ks) → heap_ordered m' = true.
Proof.
  revert m ks. induction fuel as [|fuel IH]; intros m ks Hc Hord;
    simpl; [done|].
  destruct (sweep_iter now m) as [[m1 o]|] eqn:Hi; simpl; [|done].
  pose proof (sweep_iter_consistent _ _ _ _ Hc Hi) as Hc1.
  pose proof (sweep_iter_keeps_order _ _ _ _ Hc Hord Hi) as Hord1.
  destruct o; [by intros [= <- _]|by apply IH| |by apply IH].
  destruct (checkExpirations fuel now m1) as [[m2 ks2]|] eqn:Hrec;
    simpl; [|done].
  intros [= <- _]. by eapply IH.
Qed.

(** X21: a sweep that returns keeps the queue ordered. *)
Theorem sweep_keeps_order fuel now m m' ks :
  reachable m → heap_ordered m = true →
  checkExpirations fuel now m = Some (m', ks) → heap_ordered m' = true.
Proof.
  intros Hc%reachable_consistent. by apply checkExpirations_keeps_order.
Qed.

(** X12: with room on the channel for every queued entry, the sweep
    returns after at most one pass per queued entry and one more. *)
Theorem checkExpirations_returns now m :
  reachable m →
  (length (mheap m) + length (buf (expiredCh m)) ≤ cap (expiredCh m))%nat →
  is_Some (checkExpirations (S (length (mheap m))) now m).
Proof.
  intros Hc%reachable_consistent.
  assert (∀ fuel m, consistent m → (length (mheap m) < fuel)%nat →
    (length (mheap m) + length (buf (expiredCh m)) ≤ cap (expiredCh m))%nat →
    is_Some (checkExpirations fuel now m)) as Hgen.
  2:{ intros Hroom. apply Hgen; [done|lia|done]. }
  clear m Hc. induction fuel as [|fuel IH]; intros m Hc Hf Hroom; [lia|].
  simpl. destruct (sweep_iter_is_Some now m Hc) as [[m1 o] Hi].
  rewrite Hi. simpl.
  pose proof (sweep_iter_consistent _ _ _ _ Hc Hi) as Hc1.
  pose proof (sweep_iter_effect _ _ _ _ Hi) as (_ & _ & Ho).
  destruct o as [| |k0|].
  - by eexists.
  - destruct Ho as (_ & Hch & p & Hperm).
    apply Permutation_length in Hperm. simpl in Hperm.
    apply IH; [done|lia|]. rewrite Hch. lia.
  - destruct Ho as (_ & Hch & _ & p & Hperm).
    apply Permutation_length in Hperm. simpl in Hperm.
    destruct (IH m1) as [[m2 ks2] Hrec]; [done|lia| |].
    + rewrite Hch. simpl. rewrite length_app. simpl. lia.
    + rewrite Hrec. by eexists.
  - destruct Ho as (_ & _ & Hperm & Hfull).
    apply Permutation_length in Hperm.
    unfold sweep_iter in Hi.
    destruct (mheap m) as [|q h] eqn:Hh; simpl in *; [done|lia].
Qed.

Lemma Get_found k m v e :
  Get zeroT k m = Some (v, e, true) →
  ∃ p it, items m !! k = Some p ∧ mem m !! p = Some it ∧
          removed it = false ∧ Value it = v ∧ Expires it = e.
Proof.
  unfold Get. destruct (items m !! k) as [p|] eqn:Hk; [|done].
  destruct (mem m !! p) as [it|] eqn:Hp; simpl; [|done].
  destruct (removed it) eqn:Hr; simpl; [done|].
  intros [= <- <-]. by exists p, it.
Qed.

(** X13: on an ordered queue a sweep that returns has reported every
    tracked key that was due. *)
Theorem sweep_sends_all_due fuel now m m' ks k v e :
  reachable m → heap_ordered m = true →
  checkExpirations fuel now m = Some (m', ks) →
  Get zeroT k m = Some (v, e, true) → e ≤ now → k ∈ ks.
Proof.
  intros Hc%reachable_consistent Hord Hrun Hget He.
  destruct (Get_found _ _ _ _ Hget) as (p & it & Hk & Hp & _ & _ & <-).
  destruct (decide (k ∈ ks)) as [|Hnot]; [done|exfalso].
  pose proof (checkExpirations_consistent _ _ _ _ _ Hc Hrun) as [Ht' Hq'].
  pose proof (checkExpirations_keeps_order _ _ _ _ _ Hc Hord Hrun) as Hord'.
  apply heap_ordered_spec in Hord'; [|by apply queue_ok_valid].
  destruct (checkExpirations_effect _ _ _ _ _ Hrun) as (Hm & _ & _ & _ & Hi).
  specialize (Hi k). rewrite decide_False, Hk in Hi by done.
  destruct (Ht' k p Hi) as (it' & Hp' & _ & _ & Hin).
  apply list_elem_of_lookup in Hin as [j Hj].
  destruct (checkExpirations_exit _ _ _ _ _ Hrun)
    as [Hnil|(r & itr & Hr & Hitr & Hdue)].
  { destruct (mheap m'); simplify_eq/=; by destruct j. }
  pose proof (root_least _ _ Hord' j r p Hr Hj) as Hle.
  unfold expiry in Hle. rewrite Hitr, Hp' in Hle. simpl in Hle.
  rewrite Hm in Hp'. simplify_eq. lia.
Qed.

(** X14: on an ordered queue, with room on the channel for every queued
    entry, a tick returns and reports exactly the tracked keys that are
    due, each once. *)
Theorem sweep_with_room now m :
  reachable m → heap_ordered m = true →
  (length (mheap m) + length (buf (expiredCh m)) ≤ cap (expiredCh m))%nat →
  ∃ m' ks,
    checkExpirations (S (length (mheap m))) now m = Some (m', ks) ∧
    NoDup ks ∧
    ∀ k, k ∈ ks ↔ ∃ v e, Get zeroT k m = Some (v, e, true) ∧ e ≤ now.
Proof.
  intros Hr Hord Hroom.
  destruct (checkExpirations_returns now m Hr Hroom) as [[m' ks] Hrun].
  exists m', ks. split; [done|]. split; [by eapply checkExpirations_NoDup|].
  intros k. split.
  - intros Hin.
    destruct (checkExpirations_sent _ _ _ _ _ _ Hrun Hin)
      as (p & it & Hk & Hp & _ & Hlive & He).
    exists (Value it), (Expires it). split; [|done]. by eapply Get_live.
  - intros (v & e & Hget & He). by eapply sweep_sends_all_due.
Qed.


(** *** The operations as a key-value store *)

(** X1: in a reachable state no operation panics: [watch], [Get],
    [Remove] and every pass of the sweep return. *)
Theorem operations_do_not_panic k v ttl now m :
  reachable m →
  is_Some (watch k v ttl now m) ∧ is_Some (Get zeroT k m) ∧
  is_Some (Remove k m) ∧ is_Some (sweep_iter now m).
Proof.
  intros Hc%reachable_consistent. split_and!.
  - by apply watch_is_Some.
  - by apply Get_is_Some.
  - by apply Remove_is_Some.
  - by apply sweep_iter_is_Some.
Qed.

(** X2: after [watch k v], [Get k] finds the value [v]; when [watch]
    reported a change, the expiry is [now + ttl]. *)
Theorem watch_then_Get k v ttl now m :
  reachable m →
  ∃ b m' e, watch k v ttl now m = Some (b, m') ∧
            Get zeroT k m' = Some (v, e, true) ∧
            (b = true → e = now + ttl).
Proof.
  intros Hc%reachable_consistent.
  destruct (watch_is_Some k v ttl now m Hc) as [[b m'] Hw].
  destruct Hc as [Ht _]. destruct (items m !! k) as [p|] eqn:Hk.
  - destruct (Ht k p Hk) as (it & Hp & _ & Hr & _).
    destruct (decide (Value it = v)) as [Hv|Hv].
    + rewrite (watch_same _ _ _ _ _ _ _ Hk Hp Hv) in Hw. simplify_eq.
      exists false, m', (Expires it). split; [by eapply watch_same|].
      split; [|done]. by eapply Get_live.
    + destruct (watch_refresh _ _ _ _ _ _ _ _ _ Hk Hp Hv Hw)
        as (-> & Hi & Hm & _).
      exists true, m', (now + ttl). split; [done|]. split; [|done].
      eapply (Get_live _ _ _ _ (mkItem (Key it) v (now + ttl) false));
        [by rewrite Hi| |done].
      rewrite Hm. apply list_lookup_insert_eq. by eapply lookup_lt_Some.
  - destruct (watch_new _ _ _ _ _ _ _ Hk Hw) as (-> & Hi & Hm & _).
    exists true, m', (now + ttl). split; [done|]. split; [|done].
    eapply (Get_live _ _ _ _ (mkItem k v (now + ttl) false));
      [by rewrite Hi, lookup_insert_eq| |done].
    by rewrite Hm, lookup_app_r, Nat.sub_diag.
Qed.

(** X3: [watch] returns [false] exactly when [Get] already reports the
    value, and then the state is unchanged. *)
Theorem watch_false_iff k v ttl now m b m' :
  reachable m → watch k v ttl now m = Some (b, m') →
  (b = false ↔ ∃ e, Get zeroT k m = Some (v, e, true)) ∧
  (b = false → m' = m).
Proof.
  intros [Ht _]%reachable_consistent Hw.
  destruct (items m !! k) as [p|] eqn:Hk.
  - destruct (Ht k p Hk) as (it & Hp & _ & Hr & _).
    destruct (decide (Value it = v)) as [Hv|Hv].
    + rewrite (watch_same _ _ _ _ _ _ _ Hk Hp Hv) in Hw. simplify_eq.
      split; [|done]. split; [|done]. intros _. exists (Expires it).
      by eapply Get_live.
    + destruct (watch_refresh _ _ _ _ _ _ _ _ _ Hk Hp Hv Hw) as (-> & _).
      split; [|done]. split; [done|]. intros [e He].
      apply Get_found in He as (? & ? & ? & ? & ? & ? & ?). congruence.
  - destruct (watch_new _ _ _ _ _ _ _ Hk Hw) as (-> & _).
    split; [|done]. split; [done|]. intros [e He].
    apply Get_found in He as (? & ? & ? & _). congruence.
Qed.

(** X4: [watch k] does not change what [Get] reports for any other
    key. *)
Theorem watch_other_key k k' v ttl now m b m' :
  reachable m → watch k v ttl now m = Some (b, m') → k' ≠ k →
  Get zeroT k' m' = Get zeroT k' m.
Proof.
  intros [Ht _]%reachable_consistent Hw Hne.
  destruct (items m !! k) as [p|] eqn:Hk.
  - destruct (Ht k p Hk) as (it & Hp & Hkey & Hr & _).
    destruct (decide (Value it = v)) as [Hv|Hv].
    + rewrite (watch_same _ _ _ _ _ _ _ Hk Hp Hv) in Hw. by simplify_eq.
    + destruct (watch_refresh _ _ _ _ _ _ _ _ _ Hk Hp Hv Hw)
        as (_ & Hi & Hm & _).
      unfold Get. rewrite Hi, Hm.
      destruct (items m !! k') as [p'|] eqn:Hk'; [|done].
      destruct (Ht k' p' Hk') as (it' & Hp' & Hkey' & _).
      rewrite list_lookup_insert_ne; [done|]. intros ->. congruence.
  - destruct (watch_new _ _ _ _ _ _ _ Hk Hw) as (_ & Hi & Hm & _).
    unfold Get. rewrite Hi, Hm, lookup_insert_ne by done.
    destruct (items m !! k') as [p'|] eqn:Hk'; [|done].
    destruct (Ht k' p' Hk') as (it' & Hp' & _).
    by rewrite lookup_app_l by (by eapply lookup_lt_Some).
Qed.

(** X5: [Remove k] does not change what [Get] reports for any other
    key. *)
Theorem Remove_other_key k k' m m' :
  reachable m → Remove k m = Some m' → k' ≠ k →
  Get zeroT k' m' = Get zeroT k' m.
Proof.
  intros [Ht _]%reachable_consistent Hr Hne. unfold Remove in Hr.
  destruct (items m !! k) as [p|] eqn:Hk; [|by simplify_eq].
  destruct (Ht k p Hk) as (it & Hp & Hkey & _).
  rewrite Hp in Hr. simpl in Hr. simplify_eq.
  unfold Get. simpl. rewrite lookup_delete_ne by done.
  destruct (items m !! k') as [p'|] eqn:Hk'; [|done].
  destruct (Ht k' p' Hk') as (it' & Hp' & Hkey' & _).
  rewrite list_lookup_insert_ne; [done|]. intros ->. congruence.
Qed.

(** X6: removing a key twice is the same as removing it once; removing
    a key that is not tracked changes nothing. *)
Theorem Remove_idempotent k m m' :
  Remove k m = Some m' → Remove k m' = Some m'.
Proof.
  intros Hr. apply Remove_absent in Hr. unfold Remove. by rewrite Hr.
Qed.

(** X15: a due entry at the head of the queue that carries the tombstone
    is dropped by the next pass: nothing is sent, the table and the
    channel are as before, the entry leaves the queue. *)
Theorem sweep_drops_tombstoned now m p it :
  reachable m → mheap m !! 0%nat = Some p → mem m !! p = Some it →
  Expires it ≤ now → removed it = true →
  ∃ m', sweep_iter now m = Some (m', Dropped) ∧
        items m' = items m ∧ expiredCh m' = expiredCh m ∧
        mem m' = mem m ∧ mheap m ≡ₚ p :: mheap m'.
Proof.
  intros Hc%reachable_consistent H0 Hp He Hr.
  destruct Hc as [_ Hq]. pose proof (queue_ok_valid m Hq) as Hv.
  destruct (Pop_is_Some (before (mem m)) _ (before_is_Some _) (mheap m) Hv)
    as [[x h] Hpop].
  { intros Heq. by rewrite Heq in H0. }
  unfold sweep_iter. rewrite H0, Hp. simpl.
  rewrite decide_False by lia. rewrite Hpop, Hr. simpl.
  apply Pop_spec in Hpop as [Hx Hperm].
  assert (x = p) as -> by congruence. by eexists.
Qed.

(** *** The queue as a priority queue *)

(** X16: on an ordered queue of valid entries [heap.Pop] returns the
    entry at index 0, whose expiry is least, and leaves the others, in
    heap order. *)
Theorem Pop_least σ (h h' : list ptr) x :
  Forall (λ p, is_Some (σ !! p)) h → heap.ordered (before σ) h = true →
  heap.Pop (before σ) h = Some (x, h') →
  h !! 0%nat = Some x ∧ h ≡ₚ x :: h' ∧
  (∀ y, y ∈ h' → expiry σ x ≤ expiry σ y) ∧
  heap.ordered (before σ) h' = true.
Proof.
  intros Hv Hord Hpop.
  apply (ordered_spec _ _ _ (before_expiry σ)) in Hord; [|done].
  pose proof (Pop_ordered _ _ _ (before_expiry σ) _ _ _ Hv Hord Hpop)
    as Hord'.
  destruct (Pop_spec _ _ _ _ Hpop) as [Hx Hperm].
  split_and!; [done|done| |].
  - intros y Hy. assert (y ∈ h) as [j Hj]%list_elem_of_lookup.
    { rewrite Hperm. by right. }
    by eapply (root_least _ _ Hord j).
  - apply (ordered_spec _ _ _ (before_expiry σ)); [|done].
    rewrite Hperm in Hv. by apply Forall_cons in Hv as [_ ?].
Qed.

(** X17: on an ordered queue of valid entries [heap.Push] returns, adds
    the entry and keeps the heap order. *)
Theorem Push_keeps_order σ (h : list ptr) x :
  Forall (λ p, is_Some (σ !! p)) h → is_Some (σ !! x) →
  heap.ordered (before σ) h = true →
  ∃ h', heap.Push (before σ) h x = Some h' ∧ h' ≡ₚ x :: h ∧
        heap.ordered (before σ) h' = true.
Proof.
  intros Hv Hx Hord.
  destruct (Push_is_Some (before σ) _ (before_is_Some σ) h x Hv Hx)
    as [h' Hpush].
  exists h'. split; [done|]. pose proof (Push_perm _ _ _ _ Hpush) as Hperm.
  split; [done|].
  apply (ordered_spec _ _ _ (before_expiry σ)) in Hord; [|done].
  apply (ordered_spec _ _ _ (before_expiry σ)).
  { rewrite Hperm. by constructor. }
  by eapply (Push_ordered _ _ _ (before_expiry σ)).
Qed.

End monitor_order.

(** ** The methods of [items] *)

Section items_facts.
Context {A : Type}.

(** X18: [items.Pop] undoes [items.Push]: it returns the element pushed
    last and the slice as it was. *)
Theorem pop_last_append (h : list A) x :
  heap.pop_last (heap.append h x) = Some (x, h).
Proof.
  unfold heap.pop_last, heap.append. rewrite last_snoc. simpl.
  rewrite length_app. simpl.
  replace (length h + 1 - 1)%nat with (length h) by lia.
  by rewrite take_app_length.
Qed.

(** X19: [items.Swap] is its own inverse. *)
Theorem Swap_Swap (h h' : list A) i j :
  heap.Swap h i j = Some h' → heap.Swap h' i j = Some h.
Proof.
  intros Hs. pose proof (Swap_length _ _ _ _ Hs) as Hlen.
  pose proof Hs as Hs'. unfold heap.Swap in Hs'.
  destruct (h !! i) as [a|] eqn:Ha; simpl in Hs'; [|done].
  destruct (h !! j) as [b|] eqn:Hb; simpl in Hs'; [|done].
  clear Hs'. unfold heap.Swap.
  rewrite (Swap_lookup_l _ _ _ _ Hs), Hb. simpl.
  rewrite (Swap_lookup_r _ _ _ _ Hs), Ha. simpl. f_equal.
  pose proof (lookup_lt_Some _ _ _ Ha). pose proof (lookup_lt_Some _ _ _ Hb).
  apply list_eq. intros k.
  destruct (decide (k = i)) as [->|Hki].
  { rewrite list_lookup_insert_eq; [done|]. rewrite length_insert. lia. }
  rewrite list_lookup_insert_ne by done.
  destruct (decide (k = j)) as [->|Hkj].
  { rewrite list_lookup_insert_eq; [done|]. lia. }
  rewrite list_lookup_insert_ne by done.
  by eapply Swap_lookup_ne.
Qed.

End items_facts.


(** ** Instances of the further properties *)

Lemma four_a_removed_reachable : reachable four_a_removed.
Proof.
  eapply reach_step; [apply four_state_reachable|].
  apply (step_Remove "a"). vm_compute. reflexivity.
Qed.

Lemma four_removed_reachable : reachable four_removed.
Proof.
  eapply reach_step; [apply four_state_reachable|].
  apply (step_Remove "b"). vm_compute. reflexivity.
Qed.

Lemma operations_do_not_panic_witness :
  is_Some (watch "e" 5 100 60 four_state) ∧ is_Some (Get 0 "e" four_state) ∧
  is_Some (Remove "e" four_state) ∧ is_Some (sweep_iter 60 four_state).
Proof.
  apply (operations_do_not_panic 0 "e" 5 100 60 four_state).
  apply four_state_reachable.
Defined.

Lemma watch_then_Get_witness :
  ∃ b m' e, watch "b" 2 100 50 four_state = Some (b, m') ∧
            Get 0 "b" m' = Some (2, e, true) ∧
            (b = true → e = 50 + 100).
Proof.
  apply (watch_then_Get 0 "b" 2 100 50 four_state).
  apply four_state_reachable.
Defined.

Lemma watch_false_iff_witness :
  (false = false ↔ ∃ e, Get 0 "a" four_state = Some (1, e, true)) ∧
  (false = false → four_state = four_state).
Proof.
  apply (watch_false_iff 0 "a" 1 100 50 four_state false four_state).
  - apply four_state_reachable.
  - vm_compute. reflexivity.
Defined.

Lemma watch_other_key_witness :
  Get 0 "a" four_refreshed = Get 0 "a" four_state.
Proof.
  apply (watch_other_key 0 "b" "a" 2 100 50 four_state true four_refreshed).
  - apply four_state_reachable.
  - vm_compute. reflexivity.
  - discriminate.
Defined.

Lemma Remove_other_key_witness :
  Get 0 "a" four_removed = Get 0 "a" four_state.
Proof.
  apply (Remove_other_key 0 "b" "a" four_state four_removed).
  - apply four_state_reachable.
  - vm_compute. reflexivity.
  - discriminate.
Defined.

Lemma Remove_idempotent_witness :
  Remove "b" four_removed = Some four_removed.
Proof.
  apply (Remove_idempotent "b" four_state four_removed).
  vm_compute. reflexivity.
Defined.

Lemma watch_keeps_order_witness : heap_ordered four_root_refreshed = true.
Proof.
  apply (watch_keeps_order "a" 2 100 50 four_state true four_root_refreshed).
  - apply four_state_reachable.
  - vm_compute. reflexivity.
  - intros p it Hk _ _. vm_compute in Hk. injection Hk as <-. reflexivity.
  - vm_compute. reflexivity.
Defined.

Lemma Remove_keeps_order_witness : heap_ordered four_removed = true.
Proof.
  apply (Remove_keeps_order "b" four_state four_removed).
  - apply four_state_reachable.
  - vm_compute. reflexivity.
  - vm_compute. reflexivity.
Defined.

Lemma checkExpirations_effect_witness :
  mem four_swept = mem four_state ∧
  defaultTTL four_swept = defaultTTL four_state ∧
  cap (expiredCh four_swept) = cap (expiredCh four_state) ∧
  buf (expiredCh four_swept) = buf (expiredCh four_state) ++ ["a"; "b"] ∧
  ∀ k, items four_swept !! k
       = if decide (k ∈ ["a"; "b"]) then None else items four_state !! k.
Proof.
  apply (checkExpirations_effect 10 101 four_state four_swept ["a"; "b"]).
  vm_compute. reflexivity.
Defined.

Lemma checkExpirations_NoDup_witness : NoDup ["a"; "b"].
Proof.
  apply (checkExpirations_NoDup 10 101 four_state four_swept ["a"; "b"]).
  vm_compute. reflexivity.
Defined.

Lemma checkExpirations_exit_witness :
  mheap four_swept !! 0%nat = None ∨
  ∃ p it, mheap four_swept !! 0%nat = Some p ∧
          mem four_swept !! p = Some it ∧ 101 < Expires it.
Proof.
  apply (checkExpirations_exit 10 101 four_state four_swept ["a"; "b"]).
  vm_compute. reflexivity.
Defined.

Lemma checkExpirations_returns_witness :
  is_Some (checkExpirations (S (length (mheap four_state))) 101 four_state).
Proof.
  apply (checkExpirations_returns 101 four_state).
  - apply four_state_reachable.
  - vm_compute. lia.
Defined.

Lemma sweep_sends_all_due_witness : "b" ∈ ["a"; "b"].
Proof.
  apply (sweep_sends_all_due 0 10 101 four_state four_swept ["a"; "b"]
           "b" 1 101).
  - apply four_state_reachable.
  - vm_compute. reflexivity.
  - vm_compute. reflexivity.
  - vm_compute. reflexivity.
  - lia.
Defined.

Lemma sweep_with_room_witness :
  ∃ m' ks,
    checkExpirations (S (length (mheap four_state))) 101 four_state
    = Some (m', ks) ∧
    NoDup ks ∧
    ∀ k, k ∈ ks ↔ ∃ v e, Get 0 k four_state = Some (v, e, true) ∧ e ≤ 101.
Proof.
  apply (sweep_with_room 0 101 four_state).
  - apply four_state_reachable.
  - vm_compute. reflexivity.
  - vm_compute. lia.
Defined.

Lemma sweep_drops_tombstoned_witness :
  ∃ m', sweep_iter 200 four_a_removed = Some (m', Dropped) ∧
        items m' = items four_a_removed ∧
        expiredCh m' = expiredCh four_a_removed ∧
        mem m' = mem four_a_removed ∧
        mheap four_a_removed ≡ₚ 0%nat :: mheap m'.
Proof.
  apply (sweep_drops_tombstoned 200 four_a_removed 0%nat
           (mkItem "a" 1 100 true)).
  - apply four_a_removed_reachable.
  - reflexivity.
  - reflexivity.
  - simpl. lia.
  - reflexivity.
Defined.


Lemma Pop_least_witness :
  [0; 1; 2; 3]%nat !! 0%nat = Some 0%nat ∧
  [0; 1; 2; 3]%nat ≡ₚ 0%nat :: [1; 3; 2]%nat ∧
  (∀ y, y ∈ [1; 3; 2]%nat →
        expiry (mem four_state) 0%nat ≤ expiry (mem four_state) y) ∧
  heap.ordered (before (mem four_state)) [1; 3; 2]%nat = true.
Proof.
  apply (Pop_least (mem four_state) [0; 1; 2; 3]%nat [1; 3; 2]%nat 0%nat).
  - repeat constructor; by eexists.
  - vm_compute. reflexivity.
  - vm_compute. reflexivity.
Defined.

Lemma Push_keeps_order_witness :
  ∃ h', heap.Push (before (mem four_state)) [1; 2]%nat 0%nat = Some h' ∧
        h' ≡ₚ 0%nat :: [1; 2]%nat ∧
        heap.ordered (before (mem four_state)) h' = true.
Proof.
  apply (Push_keeps_order (mem four_state) [1; 2]%nat 0%nat).
  - repeat constructor; by eexists.
  - by eexists.
  - vm_compute. reflexivity.
Defined.

Lemma Swap_Swap_witness :
  heap.Swap [3; 2; 1]%nat 0 2 = Some [1; 2; 3]%nat.
Proof.
  apply (Swap_Swap [1; 2; 3]%nat [3; 2; 1]%nat 0 2). reflexivity.
Defined.

Lemma sweep_keeps_order_witness : heap_ordered four_swept = true.
Proof.
  apply (sweep_keeps_order 10 101 four_state four_swept ["a"; "b"]).
  - apply four_state_reachable.
  - vm_compute. reflexivity.
  - vm_compute. reflexivity.
Defined.
